(** * Hermes: a shallow embedding of the adaptive solve loop

    The development follows three source files of the repository:

    - [hermes_common/src/solvers/interfaces/petsc_solver.cpp]
      (the PETSc matrix, vector and linear solver wrappers),
    - [hermes2d/tutorial/P03-timedep/05-newton-heat-rk/initial_condition.cpp]
      (the initial condition of the heat transfer tutorial),
    - [hermes1d/tests/adapt-exact-quadr-H1/main.cpp]
      (the Newton loops and the adaptivity driver of the 1D test).

    The finite element space that [main.cpp] works on belongs to the
    hermes1d library, which is not among these files; it is modelled
    after the design document of the system.

    C++ [double]s are Rocq's primitive binary64 floats (with one NaN:
    payloads are not represented), C++ [int]s are integers of [Z] (the
    loop counter never leaves the 32-bit range, see
    [newton_loop_it_bound]), arrays are lists updated by index. *)

From Stdlib Require Import ZArith List Bool Lia Floats Reals Lra.
From stdpp Require Import base option list gmap.

(* ================================================================= *)
(** ** petsc_solver.cpp: PetscMatrix *)

(** [PetscInt] is a 32-bit signed integer ([get] reads an [unsigned int]
    through a [PetscInt*], so both have the same width); the cast
    [(PetscInt)m] of an [unsigned int] wraps around. *)
Definition to_PetscInt (m : Z) : Z :=
  if (m <? 2 ^ 31)%Z then m else (m - 2 ^ 32)%Z.

(** [std::complex<double>]: real and imaginary part. *)
Definition complex : Type := (float * float)%type.

Definition complex_add (a b : complex) : complex :=
  ((fst a + fst b)%float, (snd a + snd b)%float).

(** An instantiation of the templates of the file.  [PetscScalar] is
    PETSc's scalar type, [double] or, in a build with
    [PETSC_USE_COMPLEX], [std::complex<double>]; [petsc_add] is its
    addition.  [Scalar] is the template argument; [add] asks two
    things of it: the test [v != 0.0] ([neq_zero]) and the overload
    [to_petsc(v)], [None] where the overload throws. *)
Record Instantiation (PetscScalar Scalar : Type) : Type := mkInstantiation {
  petsc_add : PetscScalar -> PetscScalar -> PetscScalar;
  neq_zero : Scalar -> bool;
  to_petsc : Scalar -> option PetscScalar
}.
Arguments mkInstantiation {PetscScalar Scalar} _ _ _.
Arguments petsc_add {PetscScalar Scalar} _ _ _.
Arguments neq_zero {PetscScalar Scalar} _ _.
Arguments to_petsc {PetscScalar Scalar} _ _.

(** [v != 0.0] on a [double] is the IEEE comparison: false for both
    zeros, true for a NaN.  On a [std::complex<double>] it is
    [!(v.real() == 0.0 && v.imag() == 0.0)]. *)
Definition double_neq_zero (v : float) : bool := negb (v =? 0)%float.

Definition complex_neq_zero (v : complex) : bool :=
  negb ((fst v =? 0)%float && (snd v =? 0)%float).

(** Without [PETSC_USE_COMPLEX]:
<<
    inline PetscScalar to_petsc(double x)
    {
      return x;
    }
    inline PetscScalar to_petsc(std::complex<double> x)
    {
      throw(Exceptions::Exception("PETSc with complex numbers support required."));
    }
>> *)
Definition real_double : Instantiation float float :=
  mkInstantiation PrimFloat.add double_neq_zero (fun x => Some x).

Definition real_complex : Instantiation float complex :=
  mkInstantiation PrimFloat.add complex_neq_zero (fun _ => None).

(** With [PETSC_USE_COMPLEX]:
<<
    inline PetscScalar to_petsc(double x)
    {
      return std::complex<double>(x, 0);
    }
    inline PetscScalar to_petsc(std::complex<double> x)
    {
      return x;
    }
>> *)
Definition complex_double : Instantiation complex float :=
  mkInstantiation complex_add double_neq_zero (fun x => Some (x, 0%float)).

Definition complex_complex : Instantiation complex complex :=
  mkInstantiation complex_add complex_neq_zero (fun x => Some x).

Inductive InsertMode : Type :=
| INSERT_VALUES
| ADD_VALUES.

(** PETSc's [MatSetValue(mat, i, j, v, mode)] on a [Mat], the stored
    entries by (row, column): a stored entry is overwritten or added
    to, a missing one is created with value [v].  (What PETSc does
    with indices outside the matrix is not part of this.) *)
Definition MatSetValue {PetscScalar : Type}
    (add : PetscScalar -> PetscScalar -> PetscScalar)
    (mat : gmap (Z * Z) PetscScalar) (i j : Z) (v : PetscScalar)
    (mode : InsertMode) : gmap (Z * Z) PetscScalar :=
  match mode, mat !! (i, j) with
  | ADD_VALUES, Some old => <[(i, j) := add old v]> mat
  | _, _ => <[(i, j) := v]> mat
  end.

(** The fields of [PetscMatrix<Scalar>]: the PETSc matrix holds
    [PetscScalar]s whatever [Scalar] is. *)
Record PetscMatrix (PetscScalar : Type) : Type := mkPetscMatrix {
  matrix : gmap (Z * Z) PetscScalar;
  inited : bool;
  nnz : Z;
  size : Z
}.
Arguments mkPetscMatrix {PetscScalar} _ _ _ _.
Arguments matrix {PetscScalar} _.
Arguments inited {PetscScalar} _.
Arguments nnz {PetscScalar} _.
Arguments size {PetscScalar} _.

(** How a call of a member function can end here: it returns, an
    [assert] fails, or it throws. *)
Inductive Outcome (A : Type) : Type :=
| Returns (a : A)
| AssertFails
| Throws.
Arguments Returns {A} a.
Arguments AssertFails {A}.
Arguments Throws {A}.

(** [PetscMatrix<Scalar>::add(unsigned int m, unsigned int n, Scalar v)]:
<<
      if (v != 0.0)
      {    // ignore zero values.
#pragma omp critical (PetscMatrix_add)
        MatSetValue(matrix, (PetscInt)m, (PetscInt)n, to_petsc(v), ADD_VALUES);
      }
>>
    The arguments of [MatSetValue] are evaluated before the call: when
    [to_petsc(v)] throws, the matrix is not touched. *)
Definition PetscMatrix_add {PetscScalar Scalar : Type}
    (T : Instantiation PetscScalar Scalar)
    (M : PetscMatrix PetscScalar) (m n : Z) (v : Scalar)
    : Outcome (PetscMatrix PetscScalar) :=
  if neq_zero T v then
    match to_petsc T v with
    | Some pv =>
        Returns
          (mkPetscMatrix
             (MatSetValue (petsc_add T) (matrix M)
                (to_PetscInt m) (to_PetscInt n) pv ADD_VALUES)
             (inited M) (nnz M) (size M))
    | None => Throws
    end
  else Returns M.

(* ================================================================= *)
(** ** petsc_solver.cpp: PetscLinearMatrixSolver

    The instantiation [PetscLinearMatrixSolver<double>] without
    [PETSC_USE_COMPLEX]: [PetscScalar] and [Scalar] are [double]. *)

Definition Vec : Type := list float.
Definition PetscErrorCode : Type := Z.

Record PetscVector : Type := mkPetscVector {
  vec : Vec;
  vec_inited : bool
}.

(** The solver object: the matrix and right-hand side it was built
    with (null pointers are [None]), and the solution array [sln]. *)
Record PetscLinearMatrixSolver : Type := mkPetscSolver {
  solver_m : option (PetscMatrix float);
  solver_rhs : option PetscVector;
  sln : list float
}.

(** [vec_get_value(x, n, idx, sln)] with [idx[i] = i]: the first [n]
    entries of [x]. *)
Definition vec_get_value (x : Vec) (n : Z) : list float :=
  map (fun i => nth i x 0%float) (seq 0 (Z.to_nat n)).

(** [PetscLinearMatrixSolver<Scalar>::solve()].  [KSPSolve] is PETSc's:
    it returns an error code and fills [x].
<<
      assert(m != nullptr);
      assert(rhs != nullptr);
      ...
      ec = KSPSolve(ksp, rhs->vec, x);
      //FIXME if (ec) return false;
      ...
      vec_get_value(x, m->get_size(), idx, this->sln);
>>
    The function is declared [void]; [ec] is assigned and not read. *)
Definition PetscLinearMatrixSolver_solve
    (KSPSolve : gmap (Z * Z) float -> Vec -> PetscErrorCode * Vec)
    (s : PetscLinearMatrixSolver) : Outcome PetscLinearMatrixSolver :=
  match solver_m s, solver_rhs s with
  | Some m, Some rhs =>
      let '(ec, x) := KSPSolve (matrix m) (vec rhs) in
      Returns (mkPetscSolver (Some m) (Some rhs) (vec_get_value x (size m)))
  | _, _ => AssertFails
  end.

(** A singular system to call [solve()] on: the 1x1 matrix (0) with
    right-hand side (1).  A direct solve stops at the zero pivot:
    [KSPSolve] returns a non-zero error code ([PETSC_ERR_MAT_LU_ZRPVT])
    and [x] stays as [VecDuplicate] left it, here zeros. *)
Definition singular_matrix : PetscMatrix float :=
  mkPetscMatrix {[ (0%Z, 0%Z) := 0%float ]} true 1 1.

Definition singular_rhs : PetscVector := mkPetscVector [1%float] true.

Definition PETSC_ERR_MAT_LU_ZRPVT : PetscErrorCode := 71%Z.

Definition KSPSolve_zero_pivot (A : gmap (Z * Z) float) (b : Vec)
    : PetscErrorCode * Vec :=
  (PETSC_ERR_MAT_LU_ZRPVT, map (fun _ => 0%float) b).

Definition singular_solver : PetscLinearMatrixSolver :=
  mkPetscSolver (Some singular_matrix) (Some singular_rhs) [].

(* ================================================================= *)
(** ** initial_condition.cpp: InitialSolutionHeatTransfer *)

(** [derivatives(double x, double y, scalar& dx, scalar& dy)]: the pair
    [(dx, dy)]. *)
Definition InitialSolutionHeatTransfer_derivatives (x y : float)
    : float * float :=
  (((y + 10) / 10)%float, ((x + 10) / 10)%float).

(** [value(double x, double y)]. *)
Definition InitialSolutionHeatTransfer_value (x y : float) : float :=
  ((x + 10) * (y + 10) / 100)%float.

(** The same two formulas over the real numbers, where "partial
    derivative" has a meaning. *)
Definition derivatives_R (x y : R) : R * R :=
  (((y + 10) / 10)%R, ((x + 10) / 10)%R).

Definition value_R (x y : R) : R := ((x + 10) * (y + 10) / 100)%R.

(* ================================================================= *)
(** ** main.cpp: Newton's loop

    The three Newton loops of [main] (lines 132-171: coarse mesh
    before the adaptivity loop; lines 211-250: reference mesh; lines
    280-320: coarse mesh from the second adaptivity step on) are the
    same text up to the names of the variables and the tolerance
    ([NEWTON_TOL_COARSE], [NEWTON_TOL_REF]).  One definition,
    parameterised by the tolerance and by the library calls, stands
    for all three. *)

(** [Vector::get(i)] and [Vector::set(i, x)]; the loops stay below
    the size of the vector, outside of it a read gives 0 and a write
    does nothing here. *)
Definition Vector : Type := list float.
Definition Vector_get (v : Vector) (i : nat) : float := nth i v 0%float.
Definition Vector_set (v : Vector) (i : nat) (x : float) : Vector :=
  <[i := x]> v.

(** The library calls of the loop.  [SpaceT] is what a [Space*]
    points to, [MatrixT] the assembled Jacobian.
    - [env_get_num_dofs]: [Space::get_num_dofs(space)];
    - [env_solution_to_vector]: [solution_to_vector(space, coeff_vec)]
      (the second argument is the array as allocated);
    - [env_vector_to_solution]: [vector_to_solution(coeff_vec, space)];
    - [env_assemble]: [dp->assemble(matrix, rhs)] for the problem [dp]
      built on the space;
    - [env_solve]: [solver->solve()], [None] when it returns [false],
      the array of [solver->get_solution()] otherwise. *)
Record NewtonEnv (SpaceT MatrixT : Type) : Type := mkNewtonEnv {
  env_get_num_dofs : SpaceT -> Z;
  env_solution_to_vector : SpaceT -> list float -> list float;
  env_vector_to_solution : list float -> SpaceT -> SpaceT;
  env_assemble : SpaceT -> MatrixT * Vector;
  env_solve : MatrixT -> Vector -> option (list float)
}.
Arguments env_get_num_dofs {SpaceT MatrixT} _ _.
Arguments env_solution_to_vector {SpaceT MatrixT} _ _ _.
Arguments env_vector_to_solution {SpaceT MatrixT} _ _ _.
Arguments env_assemble {SpaceT MatrixT} _ _.
Arguments env_solve {SpaceT MatrixT} _ _ _.

(** What the loop keeps from one pass to the next: the space (its
    elements hold coefficients), the coefficient vector and the
    counter [it]. *)
Record NewtonState (SpaceT : Type) : Type := mkNewtonState {
  space : SpaceT;
  coeff_vec : list float;
  it : Z
}.
Arguments mkNewtonState {SpaceT} _ _ _.
Arguments space {SpaceT} _.
Arguments coeff_vec {SpaceT} _.
Arguments it {SpaceT} _.

(** The two fatal [error(...)] calls of the loop. *)
Inductive NewtonError : Type :=
| SolverFailure      (* error ("Matrix solver failed.\n") *)
| DivergenceError.   (* error ("Newton method did not converge.") *)

(** How one pass through the body of [while (1)] ends. *)
Inductive IterOutcome (SpaceT : Type) : Type :=
| Break (st : NewtonState SpaceT)
| Fatal (e : NewtonError) (st : NewtonState SpaceT)
| Next (st : NewtonState SpaceT).
Arguments Break {SpaceT} st.
Arguments Fatal {SpaceT} e st.
Arguments Next {SpaceT} st.

(** How the whole loop ends. *)
Inductive NewtonResult (SpaceT : Type) : Type :=
| Converged (st : NewtonState SpaceT)
| Failed (e : NewtonError) (st : NewtonState SpaceT).
Arguments Converged {SpaceT} st.
Arguments Failed {SpaceT} e st.

(** [for(int i=0; i<ndof; i++) res_norm_squared += rhs->get(i)*rhs->get(i);] *)
Definition res_norm_squared (ndof : Z) (rhs : Vector) : float :=
  fold_left
    (fun acc i => (acc + Vector_get rhs i * Vector_get rhs i)%float)
    (seq 0 (Z.to_nat ndof)) 0%float.

(** [for(int i=0; i<ndof; i++) rhs->set(i, -rhs->get(i));] *)
Definition negate_rhs (ndof : Z) (rhs : Vector) : Vector :=
  fold_left (fun r i => Vector_set r i (- Vector_get r i)%float)
    (seq 0 (Z.to_nat ndof)) rhs.

(** [for (int i = 0; i < ndof; i++) coeff_vec[i] += solver->get_solution()[i];] *)
Definition add_correction (ndof : Z) (coeff_vec sol : list float)
    : list float :=
  fold_left
    (fun y i => <[i := (nth i y 0 + nth i sol 0)%float]> y)
    (seq 0 (Z.to_nat ndof)) coeff_vec.

(** The exit test of the loop:
    [res_norm_squared < NEWTON_TOL*NEWTON_TOL && it > 1]. *)
Definition converged_test (tol : float) (r2 : float) (it : Z) : bool :=
  (r2 <? tol * tol)%float && (1 <? it)%Z.

Section NewtonLoop.
Context {SpaceT MatrixT : Type}.
Variable env : NewtonEnv SpaceT MatrixT.
Variable tol : float.
Variable max_iter : Z.

(** The residual the loop computes at the top of a pass. *)
Definition residual_norm_squared (s : SpaceT) : float :=
  res_norm_squared (env_get_num_dofs env s) (snd (env_assemble env s)).

(** One pass through the body of [while (1)], in the order of the
    source: assemble, norm of the residual, exit test, change of sign,
    linear solve, addition of the correction, test of the iteration
    limit, copy of the coefficients to the elements, [it++].
<<
    dp->assemble(matrix, rhs);
    double res_norm_squared = 0;
    for(int i=0; i<ndof; i++) res_norm_squared += rhs->get(i)*rhs->get(i);
    if(res_norm_squared < NEWTON_TOL_REF*NEWTON_TOL_REF && it > 1) break;
    for(int i=0; i<ndof; i++) rhs->set(i, -rhs->get(i));
    if(!solver->solve())
      error ("Matrix solver failed.\n");
    for (int i = 0; i < ndof; i++) coeff_vec[i] += solver->get_solution()[i];
    if (it >= NEWTON_MAX_ITER) error ("Newton method did not converge.");
    vector_to_solution(coeff_vec, ref_space);
    it++;
>>
    [error] ends the program. *)
Definition newton_iter (st : NewtonState SpaceT) : IterOutcome SpaceT :=
  let ndof := env_get_num_dofs env (space st) in
  let '(mat, rhs) := env_assemble env (space st) in
  let r2 := res_norm_squared ndof rhs in
  if converged_test tol r2 (it st) then Break st
  else
    let rhs' := negate_rhs ndof rhs in
    match env_solve env mat rhs' with
    | None => Fatal SolverFailure st
    | Some sol =>
        let y := add_correction ndof (coeff_vec st) sol in
        if (max_iter <=? it st)%Z then
          Fatal DivergenceError (mkNewtonState (space st) y (it st))
        else
          Next (mkNewtonState (env_vector_to_solution env y (space st)) y
                  (it st + 1))
    end.

(** [while (1) { ... }], with a bound on the number of passes. *)
Fixpoint newton_loop (fuel : nat) (st : NewtonState SpaceT)
    : option (NewtonResult SpaceT) :=
  match fuel with
  | O => None
  | S fuel' =>
      match newton_iter st with
      | Break st' => Some (Converged st')
      | Fatal e st' => Some (Failed e st')
      | Next st' => newton_loop fuel' st'
      end
  end.

(** The state the loop starts from: [solution_to_vector(space,
    coeff_vec)] on the array as allocated, and [int it = 1]. *)
Definition newton_init (s : SpaceT) (arr : list float) : NewtonState SpaceT :=
  mkNewtonState s (env_solution_to_vector env s arr) 1.

(** The passes the loop can make: it fails at the latest in the pass
    with [it = max_iter], and makes one pass in any case. *)
Definition newton_fuel : nat := Z.to_nat (Z.max 1 max_iter).

(** A Newton run of [main]. *)
Definition newton (s : SpaceT) (arr : list float)
    : option (NewtonResult SpaceT) :=
  newton_loop newton_fuel (newton_init s arr).

(** [k] passes in a row that end in [it++]: [k] full iterations
    (assemble, linear solve, update). *)
Inductive full_iterations
    : nat -> NewtonState SpaceT -> NewtonState SpaceT -> Prop :=
| full_iterations_O st : full_iterations 0 st st
| full_iterations_S k st st1 st' :
    newton_iter st = Next st1 ->
    full_iterations k st1 st' ->
    full_iterations (S k) st st'.

End NewtonLoop.

(** The settings of [main.cpp]; [1e-6] as a [double] is the binary64
    number closest to it. *)
Definition NEWTON_TOL_COARSE : float := 0x1.0c6f7a0b5ed8dp-20%float.
Definition NEWTON_TOL_REF : float := 0x1.0c6f7a0b5ed8dp-20%float.
Definition NEWTON_MAX_ITER : Z := 150.

(** A problem with one unknown to run the loop on: the space is its
    coefficient vector, the residual of [y] is [y - 1], the Jacobian
    is the identity (so the solver returns its right-hand side). *)
Definition one_dof_env : NewtonEnv (list float) unit :=
  mkNewtonEnv (list float) unit
    (fun s => Z.of_nat (length s))
    (fun s _ => s)
    (fun y _ => y)
    (fun s => (tt, map (fun c => (c - 1)%float) s))
    (fun _ rhs => Some rhs).

(** The same with a residual that is [1] whatever the coefficients:
    the loop cannot converge. *)
Definition stuck_env : NewtonEnv (list float) unit :=
  mkNewtonEnv (list float) unit
    (fun s => Z.of_nat (length s))
    (fun s _ => s)
    (fun y _ => y)
    (fun s => (tt, map (fun _ => 1%float) s))
    (fun _ rhs => Some rhs).

(** And one whose linear solver reports failure. *)
Definition singular_env : NewtonEnv (list float) unit :=
  mkNewtonEnv (list float) unit
    (fun s => Z.of_nat (length s))
    (fun s _ => s)
    (fun y _ => y)
    (fun s => (tt, map (fun c => (c - 1)%float) s))
    (fun _ _ => None).

(* ================================================================= *)
(** ** The finite element space of hermes1d

    [main.cpp] builds a [Space], enumerates its degrees of freedom
    ([assign_dofs]), copies coefficients between the elements and a
    vector ([solution_to_vector], [vector_to_solution]) and asks for a
    reference space ([construct_refined_space]).  The file of the
    library that defines them is not among the sources; the
    definitions of this part follow the design document instead. *)

(** Modelled from the spec: the boundary-condition configuration
    (section 6; the library file is missing).  At an end point of the
    domain, for one equation: Dirichlet with its value, or natural. *)
Inductive BC : Type :=
| Dirichlet (val : float)
| Natural.

(** Modelled from the spec: a local coefficient of an element
    (section 3; the library file is missing).  Its value, and its
    index in the global numbering, [None] while it is constrained by a
    Dirichlet condition (it is then no unknown, and keeps a fixed
    value). *)
Record LocalCoeff : Type := mkLocalCoeff {
  lc_dof : option nat;
  lc_val : float
}.

(** Modelled from the spec: the class [Element] (section 3).  The end
    points of the interval, the polynomial degree [p], and for each
    equation the local coefficient vector of length [p + 1]. *)
Record ElemData : Type := mkElemData {
  e_x1 : float;
  e_x2 : float;
  e_p : nat;
  e_coeffs : list (list LocalCoeff)
}.

(** Modelled from the spec: the hierarchy of elements (section 3).
    An element is active, or it was split and owns its two sons for
    good. *)
Inductive Element : Type :=
| Active (e : ElemData)
| Inactive (e : ElemData) (son0 son1 : Element).

(** Modelled from the spec: the class [Space] (section 3).  The
    elements of the base mesh from left to right, the number of
    equations, the boundary conditions at the two end points for each
    equation, and the number of degrees of freedom of the last
    enumeration. *)
Record Space : Type := mkSpace {
  elems : list Element;
  n_eq : nat;
  bc_left : list BC;
  bc_right : list BC;
  n_dof : nat
}.

(** The active elements below an element, and of a space, from left
    to right. *)
Fixpoint active_below (t : Element) : list ElemData :=
  match t with
  | Active e => [e]
  | Inactive _ son0 son1 => active_below son0 ++ active_below son1
  end.

Definition active_elements (s : Space) : list ElemData :=
  flat_map active_below (elems s).

Definition get_n_active_elem (s : Space) : nat := length (active_elements s).
Definition get_num_dofs (s : Space) : nat := n_dof s.

(** The local coefficients in the order of the walks below: active
    elements from left to right, equation by equation, local index by
    local index. *)
Definition local_coeffs_of (e : ElemData) : list LocalCoeff :=
  concat (e_coeffs e).

Definition local_coeffs (s : Space) : list LocalCoeff :=
  flat_map local_coeffs_of (active_elements s).

(** A walk over the active elements from left to right that carries a
    value [a] along and may change each element. *)
Section Walk.
Context {A : Type}.
Variable f : A -> ElemData -> A * ElemData.

Fixpoint walk_element (a : A) (t : Element) : A * Element :=
  match t with
  | Active e => let '(a', e') := f a e in (a', Active e')
  | Inactive e son0 son1 =>
      let '(a0, son0') := walk_element a son0 in
      let '(a1, son1') := walk_element a0 son1 in
      (a1, Inactive e son0' son1')
  end.

Fixpoint walk_elements (a : A) (ts : list Element) : A * list Element :=
  match ts with
  | [] => (a, [])
  | t :: ts' =>
      let '(a0, t') := walk_element a t in
      let '(a1, ts'') := walk_elements a0 ts' in
      (a1, t' :: ts'')
  end.

(** The same walk over a list of active elements. *)
Fixpoint walk_active (a : A) (es : list ElemData) : A * list ElemData :=
  match es with
  | [] => (a, [])
  | e :: es' =>
      let '(a0, e') := f a e in
      let '(a1, es'') := walk_active a0 es' in
      (a1, e' :: es'')
  end.

End Walk.

(** The Dirichlet value of the equation at the head of a list of
    boundary conditions, if it has one. *)
Definition dirichlet_head (bcs : list BC) : option float :=
  match bcs with
  | Dirichlet v :: _ => Some v
  | _ => None
  end.

(** Local coefficient 0 belongs to the left end point of the element,
    local coefficient 1 to its right end point, the others to its
    interior: [fl] and [fr] are the values fixed at the two ends. *)
Definition fixed_value (fl fr : option float) (j : nat) : option float :=
  match j with
  | 0 => fl
  | 1 => fr
  | _ => None
  end.

(** Enumeration of one local coefficient vector from local index [j]
    on, [n] being the next free global index: a constrained
    coefficient is skipped and fixed to its value, a free one gets
    the next index. *)
Fixpoint assign_row (fl fr : option float) (j n : nat)
    (row : list LocalCoeff) : nat * list LocalCoeff :=
  match row with
  | [] => (n, [])
  | lc :: row' =>
      match fixed_value fl fr j with
      | Some v =>
          let '(n', r) := assign_row fl fr (S j) n row' in
          (n', mkLocalCoeff None v :: r)
      | None =>
          let '(n', r) := assign_row fl fr (S j) (S n) row' in
          (n', mkLocalCoeff (Some n) (lc_val lc) :: r)
      end
  end.

(** Equation by equation: [bl] and [br] list the boundary conditions
    that apply to this element, from the current equation on. *)
Fixpoint assign_rows (bl br : list BC) (n : nat)
    (rows : list (list LocalCoeff)) : nat * list (list LocalCoeff) :=
  match rows with
  | [] => (n, [])
  | row :: rows' =>
      let '(n0, row') :=
        assign_row (dirichlet_head bl) (dirichlet_head br) 0 n row in
      let '(n1, rows'') := assign_rows (tail bl) (tail br) n0 rows' in
      (n1, row' :: rows'')
  end.

(** One active element: [i] counts the active elements walked so far.
    The left boundary conditions apply to the first active element,
    the right ones to the last. *)
Definition assign_element (bl br : list BC) (n_active : nat)
    (a : nat * nat) (e : ElemData) : (nat * nat) * ElemData :=
  let '(i, n) := a in
  let '(n', rows) :=
    assign_rows (if (i =? 0)%nat then bl else [])
                (if (S i =? n_active)%nat then br else [])
                n (e_coeffs e) in
  ((S i, n'), mkElemData (e_x1 e) (e_x2 e) (e_p e) rows).

(** Modelled from the spec: [Space::assign_dofs()] (section 4.1; the
    library file is missing).  It "walks active Elements left to right
    in domain order, assigns each free local coefficient a unique
    increasing global index, skips/fixes coefficients constrained by a
    Dirichlet boundary condition at a domain endpoint, returns total
    free dof count".  The count returned is [n_dof] of the result. *)
Definition assign_dofs (s : Space) : Space :=
  let '((_, n), ts) :=
    walk_elements
      (assign_element (bc_left s) (bc_right s) (get_n_active_elem s))
      (0, 0) (elems s) in
  mkSpace ts (n_eq s) (bc_left s) (bc_right s) n.

(** Copy of one entry of the coefficient vector into a local
    coefficient (an index past the end of the vector reads nothing). *)
Definition load (y : list float) (lc : LocalCoeff) : LocalCoeff :=
  match lc_dof lc with
  | Some k => mkLocalCoeff (Some k) (default (lc_val lc) (y !! k))
  | None => lc
  end.

Fixpoint map_active (f : ElemData -> ElemData) (t : Element) : Element :=
  match t with
  | Active e => Active (f e)
  | Inactive e son0 son1 =>
      Inactive e (map_active f son0) (map_active f son1)
  end.

Definition load_element (y : list float) (e : ElemData) : ElemData :=
  mkElemData (e_x1 e) (e_x2 e) (e_p e) (map (map (load y)) (e_coeffs e)).

(** Modelled from the spec: [vector_to_solution(y, space)] (section 3,
    "Coefficient vector"; the library file is missing).  The vector is
    "index-aligned with the global dof numbering" and is "copied back
    into Element-local storage". *)
Definition vector_to_solution (y : list float) (s : Space) : Space :=
  mkSpace (map (map_active (load_element y)) (elems s))
    (n_eq s) (bc_left s) (bc_right s) (n_dof s).

(** Copy of a local coefficient into the coefficient vector (an index
    past the end of the vector writes nothing). *)
Definition store (y : list float) (lc : LocalCoeff) : list float :=
  match lc_dof lc with
  | Some k => <[k := lc_val lc]> y
  | None => y
  end.

(** Modelled from the spec: [solution_to_vector(space, y)] (section 3,
    "Coefficient vector"; the library file is missing).  The vector is
    "extracted from" the element-local storage; [y] is the array the
    caller allocated. *)
Definition solution_to_vector (s : Space) (y : list float) : list float :=
  fold_left store (local_coeffs s) y.

(** Modelled from the spec: the reference-refinement policy (section
    4.1; the library file is missing): split, raise the degree, or
    both; [ref_incr] is the increment of the degree. *)
Inductive RefKind : Type :=
| REF_H
| REF_P
| REF_HP.

Record RefPolicy : Type := mkRefPolicy {
  ref_kind : RefKind;
  ref_incr : nat
}.

(** Coefficient storage of a new element: [neq] vectors of [p + 1]
    zeros, not enumerated yet. *)
Definition new_coeffs (neq p : nat) : list (list LocalCoeff) :=
  replicate neq (replicate (S p) (mkLocalCoeff None 0%float)).

Definition midpoint (a b : float) : float := ((a + b) / 2)%float.

Definition refine_element (pol : RefPolicy) (neq : nat) (e : ElemData)
    : Element :=
  let mid := midpoint (e_x1 e) (e_x2 e) in
  let q := (e_p e + ref_incr pol)%nat in
  match ref_kind pol with
  | REF_P => Active (mkElemData (e_x1 e) (e_x2 e) q (new_coeffs neq q))
  | REF_H =>
      Inactive e
        (Active (mkElemData (e_x1 e) mid (e_p e) (new_coeffs neq (e_p e))))
        (Active (mkElemData mid (e_x2 e) (e_p e) (new_coeffs neq (e_p e))))
  | REF_HP =>
      Inactive e
        (Active (mkElemData (e_x1 e) mid q (new_coeffs neq q)))
        (Active (mkElemData mid (e_x2 e) q (new_coeffs neq q)))
  end.

Fixpoint refine_active (pol : RefPolicy) (neq : nat) (t : Element)
    : Element :=
  match t with
  | Active e => refine_element pol neq e
  | Inactive e son0 son1 =>
      Inactive e (refine_active pol neq son0) (refine_active pol neq son1)
  end.

(** The reference space of a space: every active element refined by
    the policy, with the equations and boundary conditions of the
    coarse space, and the degrees of freedom enumerated. *)
Definition refined_elements (pol : RefPolicy) (s : Space) : Space :=
  mkSpace (map (refine_active pol (n_eq s)) (elems s))
    (n_eq s) (bc_left s) (bc_right s) 0.

Definition refined_space (pol : RefPolicy) (s : Space) : Space :=
  assign_dofs (refined_elements pol s).

(** Modelled from the spec: [construct_refined_space(coarse)] (section
    4.1; the library file is missing).  It "produces a new Space whose
    Elements are obtained by, for every active coarse Element, either
    splitting it into two half-width child Elements (h-refinement) or
    raising its degree by a fixed increment (p-refinement) or both (hp),
    per a global reference-refinement policy".  [heap] holds the
    [Space] objects by address, [coarse] is the [Space*] given; the
    result is the address of the new object and the heap with it. *)
Definition construct_refined_space (pol : RefPolicy)
    (heap : gmap positive Space) (coarse : positive)
    : option (positive * gmap positive Space) :=
  match heap !! coarse with
  | Some s =>
      let ref := fresh (dom heap) in
      Some (ref, <[ref := refined_space pol s]> heap)
  | None => None
  end.

(** The invariants of a space the properties below rest on: at least
    one equation and one active element, degree at least 1, one
    coefficient vector of length [p + 1] for each equation, one
    boundary condition for each equation and end point. *)
Definition elem_wf (neq : nat) (e : ElemData) : Prop :=
  1 <= e_p e /\
  length (e_coeffs e) = neq /\
  Forall (fun row => length row = S (e_p e)) (e_coeffs e).

Definition Space_wf (s : Space) : Prop :=
  1 <= n_eq s /\
  active_elements s <> [] /\
  Forall (elem_wf (n_eq s)) (active_elements s) /\
  length (bc_left s) = n_eq s /\
  length (bc_right s) = n_eq s.

(** The number of Dirichlet conditions in a list, and of a space: each
    constrains one local coefficient. *)
Definition is_dirichlet (b : BC) : bool :=
  match b with
  | Dirichlet _ => true
  | Natural => false
  end.

Fixpoint count_dirichlet (bcs : list BC) : nat :=
  match bcs with
  | [] => 0
  | b :: bcs' =>
      (if is_dirichlet b then 1 else 0) + count_dirichlet bcs'
  end.

Definition n_dirichlet (s : Space) : nat :=
  count_dirichlet (bc_left s) + count_dirichlet (bc_right s).

(** Counting aids: 1 for a fixed value; what the Dirichlet conditions
    take away at the active element number [i] of [N], the left ones
    at the first, the right ones at the last. *)
Definition is_fixed (o : option float) : nat :=
  match o with
  | Some _ => 1
  | None => 0
  end.

Definition at_first (i : nat) (d : nat) : nat :=
  if (i =? 0)%nat then d else 0.

Definition at_last (i N : nat) (d : nat) : nat :=
  if (S i =? N)%nat then d else 0.

(** The coarse space of [main.cpp] before the enumeration: domain
    [-1, 1], two elements of degree 1, one equation, Dirichlet value 0
    at both ends ([Space(A, B, NELEM, P_init, NEQ)],
    [set_bc_left_dirichlet(0, Val_dir_left)],
    [set_bc_right_dirichlet(0, Val_dir_right)]). *)
Definition main_space : Space :=
  mkSpace
    [Active (mkElemData (-1) 0 1 (new_coeffs 1 1));
     Active (mkElemData 0 1 1 (new_coeffs 1 1))]
    1 [Dirichlet 0] [Dirichlet 0] 0.

(* ================================================================= *)
(** ** petsc_solver.cpp: the count of PETSc objects *)












(* ================================================================= *)
(** ** petsc_solver.cpp: PetscMatrix<double>::get and zero *)




(* ================================================================= *)
(** ** petsc_solver.cpp: PetscVector<double> *)

(** PETSc's [VecSetValue(x, row, v, mode)] on a sequential vector: the
    entry is overwritten or added to.  (What PETSc does with a row
    outside of the vector depends on how it was built; here the vector
    stays as it is, and no property below is about such a row.) *)
Definition VecSetValue (x : Vec) (row : Z) (v : float) (mode : InsertMode)
    : Vec :=
  if (0 <=? row)%Z && (row <? Z.of_nat (length x))%Z then
    <[Z.to_nat row :=
        match mode with
        | INSERT_VALUES => v
        | ADD_VALUES => (nth (Z.to_nat row) x 0 + v)%float
        end]> x
  else x.

(** [VecGetValues(x, ni, ix, y)] and [VecSetValues(x, ni, ix, y, mode)]:
    the [ni] rows listed in [ix] (a row outside of the vector reads as
    0 here, with the same proviso). *)
Definition VecGetValues (x : Vec) (ni : Z) (ix : list Z) : list float :=
  map
    (fun k =>
       let row := nth k ix 0%Z in
       if (0 <=? row)%Z && (row <? Z.of_nat (length x))%Z then
         nth (Z.to_nat row) x 0%float
       else 0%float)
    (seq 0 (Z.to_nat ni)).

Definition VecSetValues (x : Vec) (ni : Z) (ix : list Z) (y : list float)
    (mode : InsertMode) : Vec :=
  fold_left (fun acc k => VecSetValue acc (nth k ix 0%Z) (nth k y 0%float) mode)
    (seq 0 (Z.to_nat ni)) x.

(** [get_size()]: the field [size], which [alloc(n)] sets together with
    the length of [vec] ([this->size = n; VecCreateSeq(PETSC_COMM_SELF,
    this->size, &vec);]). *)
Definition PetscVector_get_size (v : PetscVector) : Z :=
  Z.of_nat (length (vec v)).

(** [PetscVector<double>::set(idx, y)] and [add(idx, y)] without
    [PETSC_USE_COMPLEX] ([to_petsc(y)] is [y]); the [unsigned int idx]
    is converted to the [PetscInt] that [VecSetValue] takes.
<<
      VecSetValue(vec, idx, to_petsc(y), INSERT_VALUES);
>>
<<
#pragma omp critical (PetscVector_add)
      VecSetValue(vec, idx, to_petsc(y), ADD_VALUES);
>> *)
Definition PetscVector_set (v : PetscVector) (idx : Z) (y : float)
    : PetscVector :=
  mkPetscVector (VecSetValue (vec v) (to_PetscInt idx) y INSERT_VALUES)
    (vec_inited v).

Definition PetscVector_add (v : PetscVector) (idx : Z) (y : float)
    : PetscVector :=
  mkPetscVector (VecSetValue (vec v) (to_PetscInt idx) y ADD_VALUES)
    (vec_inited v).

(** [PetscVector<double>::get(unsigned int idx)] without
    [PETSC_USE_COMPLEX]: [VecGetValues] for the one row [idx], read
    through a pointer to [PetscInt]; the function returns
    [PetscRealPart(py)] of the value [py] it gets. *)
Definition PetscVector_get (v : PetscVector) (idx : Z) : float :=
  nth 0 (VecGetValues (vec v) 1 [to_PetscInt idx]) 0%float.

(** [PetscVector<Scalar>::extract(Scalar *v)]: the array it fills.
<<
      for (unsigned int i = 0; i < this->size; i++) idx[i] = i;
      vec_get_value(vec, this->size, idx, v);
>> *)
Definition PetscVector_extract (v : PetscVector) : list float :=
  vec_get_value (vec v) (PetscVector_get_size v).

(** [PetscVector<Scalar>::add(unsigned int n, unsigned int *idx,
    Scalar *y)]:
<<
      for (unsigned int i = 0; i < n; i++)
      {
        VecSetValue(vec, idx[i], to_petsc(y[i]), ADD_VALUES);
      }
>> *)
Definition PetscVector_add_n (v : PetscVector) (n : Z) (idx : list Z)
    (y : list float) : PetscVector :=
  fold_left
    (fun acc i =>
       mkPetscVector
         (VecSetValue (vec acc) (to_PetscInt (nth i idx 0%Z)) (nth i y 0%float)
            ADD_VALUES)
         (vec_inited acc))
    (seq 0 (Z.to_nat n)) v.

(** What the loop does to the entry [j]: the values listed for the row
    [j] are added to it one after the other, in the order of the
    arrays. *)
Definition add_n_entry (j : Z) (idx : list Z) (y : list float)
    (ks : list nat) (a : float) : float :=
  fold_left
    (fun a k => if (nth k idx 0 =? j)%Z then (a + nth k y 0)%float else a)
    ks a.

(** [PetscVector<Scalar>::add_vector(Vector<Scalar>* vec)]; the other
    vector is any [Vector] of the library, here its entries.
<<
      assert(this->get_size() == vec->get_size());
      for (unsigned int i = 0; i < this->get_size(); i++)
        this->add(i, vec->get(i));
      return this;
>> *)
Definition PetscVector_add_vector (v : PetscVector) (w : Vector)
    : Outcome PetscVector :=
  if (PetscVector_get_size v =? Z.of_nat (length w))%Z then
    Returns
      (fold_left
         (fun acc i => PetscVector_add acc (Z.of_nat i) (Vector_get w i))
         (seq 0 (Z.to_nat (PetscVector_get_size v))) v)
  else AssertFails.

(** [PetscVector<Scalar>::add_vector(Scalar* vec)]: the same loop on an
    array, without the [assert].
<<
      for (unsigned int i = 0; i < this->get_size(); i++)
        this->add(i, vec[i]);
      return this;
>> *)
Definition PetscVector_add_vector_array (v : PetscVector) (arr : list float)
    : PetscVector :=
  fold_left
    (fun acc i => PetscVector_add acc (Z.of_nat i) (nth i arr 0%float))
    (seq 0 (Z.to_nat (PetscVector_get_size v))) v.

(** [PetscVector<Scalar>::change_sign()]; [idx] is an array of [int].
<<
      for (unsigned int i = 0; i < this->size; i++) idx[i] = i;
      VecGetValues(vec, this->size, idx, y);
      for (unsigned int i = 0; i < this->size; i++) y[i] *= -1.;
      VecSetValues(vec, this->size, idx, y, INSERT_VALUES);
      ...
      return this;
>> *)
Definition PetscVector_change_sign (v : PetscVector) : PetscVector :=
  let n := PetscVector_get_size v in
  let idx := map (fun i => to_PetscInt (Z.of_nat i)) (seq 0 (Z.to_nat n)) in
  let y := VecGetValues (vec v) n idx in
  let y' :=
    fold_left (fun y i => <[i := (nth i y 0 * -1)%float]> y)
      (seq 0 (Z.to_nat n)) y in
  mkPetscVector (VecSetValues (vec v) n idx y' INSERT_VALUES) (vec_inited v).

(* ================================================================= *)
(** ** main.cpp: the problem and its weak forms *)

(** The settings of the adaptivity loop; [1e-3] as a [double]. *)
Definition ERROR_SUCCESS : Z := 0.
Definition ERROR_FAILURE : Z := (-1).
Definition A : float := (-1)%float.
Definition B : float := 1%float.
Definition TOL_ERR_REL : float := 0x1.0624dd2f1a9fcp-10%float.
Definition Val_dir_left : float := 0%float.
Definition Val_dir_right : float := 0%float.

(** [double f(double x) { return 2; }] *)
Definition f (x : float) : float := 2%float.

(** [exact_sol(x, u, dudx)]: the pair [(u[0], dudx[0])].
<<
  u[0] = 1. - x*x;
  dudx[0] = -2.*x;
>> *)
Definition exact_sol (x : float) : float * float :=
  ((1 - x * x)%float, (-2 * x)%float).

(** The three-dimensional arrays [u_prev] and [du_prevdx]: solution,
    equation, quadrature point. *)
Definition at3 (a : list (list (list float))) (si c i : nat) : float :=
  nth i (nth c (nth si a []) []) 0%float.

(** [jacobian(num, x, weights, u, dudx, v, dvdx, u_prev, du_prevdx,
    user_data)]:
<<
  double val = 0;
  for(int i = 0; i<num; i++) {
    val += dudx[i]*dvdx[i]*weights[i];
  }
  return val;
>> *)
Definition jacobian (num : Z) (x weights u dudx v dvdx : list float)
    (u_prev du_prevdx : list (list (list float))) : float :=
  fold_left
    (fun val i => (val + nth i dudx 0 * nth i dvdx 0 * nth i weights 0)%float)
    (seq 0 (Z.to_nat num)) 0%float.

(** [residual(num, x, weights, u_prev, du_prevdx, v, dvdx, user_data)]:
<<
  double val = 0;
  int si = 0;
  for(int i = 0; i<num; i++) {
    val += (du_prevdx[si][0][i]*dvdx[i] - f(x[i])*v[i])*weights[i];
  }
  return val;
>> *)
Definition residual (num : Z) (x weights : list float)
    (u_prev du_prevdx : list (list (list float))) (v dvdx : list float)
    : float :=
  let si := 0%nat in
  fold_left
    (fun val i =>
       (val + (at3 du_prevdx si 0 i * nth i dvdx 0 - f (nth i x 0) * nth i v 0)
              * nth i weights 0)%float)
    (seq 0 (Z.to_nat num)) 0%float.

(** The same formulas over the real numbers, where a derivative and
    the linearity of a sum have a meaning. *)
Definition f_R (x : R) : R := 2%R.

Definition exact_sol_R (x : R) : R * R := ((1 - x * x)%R, (-2 * x)%R).



(* ================================================================= *)
(** ** main.cpp: the adaptivity loop *)

(** The library calls of [main] besides those of the Newton loops:
    - [env_newton]: the calls of the Newton loops, on the coarse and
      on the reference space alike;
    - [env_new_array]: [new double[n]], the array as allocated;
    - [env_initial_space]: the space of lines 105-108 ([new Space(A, B,
      NELEM, P_init, NEQ)], the two Dirichlet conditions,
      [assign_dofs()]);
    - [env_construct_refined_space]: [construct_refined_space(space)];
    - [env_calc_err_est]: [calc_err_est(NORM, space, ref_space,
      err_est_array)], its value and the array it fills;
    - [env_calc_err_exact]: [calc_err_exact(NORM, space, exact_sol,
      NEQ, A, B)];
    - [env_adapt]: [adapt(NORM, ADAPT_TYPE, THRESHOLD, err_est_array,
      space, ref_space)], the two spaces as it leaves them;
    - [env_get_n_active_elem]: [space->get_n_active_elem()];
    - [env_first_active_p], [env_last_active_p]: the degree [p] of
      [space->first_active_element()] and of
      [space->last_active_element()].
    Logging, time measurement, the convergence graphs and the plots
    are output only and are left out. *)
Record AdaptEnv (SpaceT MatrixT : Type) : Type := mkAdaptEnv {
  env_newton : NewtonEnv SpaceT MatrixT;
  env_new_array : Z -> list float;
  env_initial_space : SpaceT;
  env_construct_refined_space : SpaceT -> SpaceT;
  env_calc_err_est : SpaceT -> SpaceT -> float * list float;
  env_calc_err_exact : SpaceT -> float;
  env_adapt : list float -> SpaceT -> SpaceT -> SpaceT * SpaceT;
  env_get_n_active_elem : SpaceT -> Z;
  env_first_active_p : SpaceT -> Z;
  env_last_active_p : SpaceT -> Z
}.
Arguments env_newton {SpaceT MatrixT} _.
Arguments env_new_array {SpaceT MatrixT} _ _.
Arguments env_initial_space {SpaceT MatrixT} _.
Arguments env_construct_refined_space {SpaceT MatrixT} _ _.
Arguments env_calc_err_est {SpaceT MatrixT} _ _ _.
Arguments env_calc_err_exact {SpaceT MatrixT} _ _.
Arguments env_adapt {SpaceT MatrixT} _ _ _ _.
Arguments env_get_n_active_elem {SpaceT MatrixT} _ _.
Arguments env_first_active_p {SpaceT MatrixT} _ _.
Arguments env_last_active_p {SpaceT MatrixT} _ _.

(** How [main] ends: [return code], or one of the [error(...)] calls
    of a Newton loop ends the program. *)
Inductive MainResult : Type :=
| Exit (code : Z)
| Abort (e : NewtonError).

(** How one pass through the body of the adaptivity loop ends. *)
Inductive StepOutcome (SpaceT : Type) : Type :=
| StepBreak (success_test : bool)
| StepAbort (e : NewtonError)
| StepNext (sp : SpaceT) (success_test : bool).
Arguments StepBreak {SpaceT} success_test.
Arguments StepAbort {SpaceT} e.
Arguments StepNext {SpaceT} sp success_test.

Section AdaptLoop.
Context {SpaceT MatrixT : Type}.
Variable env : AdaptEnv SpaceT MatrixT.

(** A Newton loop of [main] on a space, with the array
    [new double[Space::get_num_dofs(space)]]. *)
Definition newton_on (tol : float) (sp : SpaceT)
    : option (NewtonResult SpaceT) :=
  newton (env_newton env) tol NEWTON_MAX_ITER sp
    (env_new_array env (env_get_num_dofs (env_newton env) sp)).

(** The first half of a pass (lines 192-328): the reference space, the
    Newton loop on it and, [if (as > 1)], the Newton loop on the coarse
    space.  The result is the coarse and the reference space with
    their solutions. *)
Definition adapt_solve (sp : SpaceT) (as_ : Z)
    : option (NewtonError + SpaceT * SpaceT) :=
  match newton_on NEWTON_TOL_REF (env_construct_refined_space env sp) with
  | None => None
  | Some (Failed e _) => Some (inl e)
  | Some (Converged st_ref) =>
      if (1 <? as_)%Z then
        match newton_on NEWTON_TOL_COARSE sp with
        | None => None
        | Some (Failed e _) => Some (inl e)
        | Some (Converged st) => Some (inr (space st, space st_ref))
        end
      else Some (inr (sp, space st_ref))
  end.

(** [err_est_rel] of a pass:
    [calc_err_est(NORM, space, ref_space, err_est_array) * 100]. *)
Definition err_est_rel (sp ref_space : SpaceT) : float :=
  (fst (env_calc_err_est env sp ref_space) * 100)%float.

(** [err_exact_rel] of a pass:
    [calc_err_exact(NORM, space, exact_sol, NEQ, A, B) * 100]. *)
Definition err_exact_rel (sp : SpaceT) : float :=
  (env_calc_err_exact env sp * 100)%float.

(** The second half of a pass (lines 330-390).
<<
    double err_est_rel = calc_err_est(NORM, space, ref_space, err_est_array) * 100;
    if (EXACT_SOL_PROVIDED) {
      double err_exact_rel = calc_err_exact(NORM, space, exact_sol, NEQ, A, B) * 100;
      if (as == 2)
        if (err_exact_rel > 1e-10) success_test = 0;
    }
    if(err_est_rel < TOL_ERR_REL) break;
    if (as == 30) {
      if (err_est_rel > 1e-10) success_test = 0;
      if (space->get_n_active_elem() != 2) success_test = 0;
      Element *e = space->first_active_element();
      if (e->p != 2) success_test = 0;
      e = space->last_active_element();
      if (e->p != 2) success_test = 0;
      break;
    }
    adapt(NORM, ADAPT_TYPE, THRESHOLD, err_est_array, space, ref_space);
    as++;
>>
    [EXACT_SOL_PROVIDED] is 1; [1e-10] is the [double] closest to
    it. *)
Definition adapt_decide (sp ref_space : SpaceT) (as_ : Z)
    (success_test : bool) : StepOutcome SpaceT :=
  let err_est_array := snd (env_calc_err_est env sp ref_space) in
  let est := err_est_rel sp ref_space in
  let exact := err_exact_rel sp in
  let success1 :=
    if (as_ =? 2)%Z && (0x1.b7cdfd9d7bdbbp-34 <? exact)%float then false
    else success_test in
  if (est <? TOL_ERR_REL)%float then StepBreak success1
  else if (as_ =? 30)%Z then
    let success2 :=
      if (0x1.b7cdfd9d7bdbbp-34 <? est)%float then false else success1 in
    let success3 :=
      if negb (env_get_n_active_elem env sp =? 2)%Z then false
      else success2 in
    let success4 :=
      if negb (env_first_active_p env sp =? 2)%Z then false else success3 in
    let success5 :=
      if negb (env_last_active_p env sp =? 2)%Z then false else success4 in
    StepBreak success5
  else
    StepNext (fst (env_adapt env err_est_array sp ref_space)) success1.

(** One pass through the body of [while(1)] of the adaptivity loop. *)
Definition adapt_step (sp : SpaceT) (as_ : Z) (success_test : bool)
    : option (StepOutcome SpaceT) :=
  match adapt_solve sp as_ with
  | None => None
  | Some (inl e) => Some (StepAbort e)
  | Some (inr (sp1, ref_space)) =>
      Some (adapt_decide sp1 ref_space as_ success_test)
  end.

(** The adaptivity loop, with a bound on the number of passes, and
    the end of [main]:
<<
  if (success_test) {
    info("Success!");
    return ERROR_SUCCESS;
  }
  else {
    info("Failure!");
    return ERROR_FAILURE;
  }
>> *)
Fixpoint adapt_loop (fuel : nat) (sp : SpaceT) (as_ : Z)
    (success_test : bool) : option MainResult :=
  match fuel with
  | O => None
  | S fuel' =>
      match adapt_step sp as_ success_test with
      | None => None
      | Some (StepAbort e) => Some (Abort e)
      | Some (StepBreak s) =>
          Some (Exit (if s then ERROR_SUCCESS else ERROR_FAILURE))
      | Some (StepNext sp' s) => adapt_loop fuel' sp' (as_ + 1) s
      end
  end.

(** [main()]: the Newton loop on the coarse space, then the adaptivity
    loop from [as = 1] and [success_test = 1]; the loop leaves at the
    latest in the pass with [as == 30]. *)
Definition main : option MainResult :=
  match newton_on NEWTON_TOL_COARSE (env_initial_space env) with
  | None => None
  | Some (Failed e _) => Some (Abort e)
  | Some (Converged st) => adapt_loop 30 (space st) 1 true
  end.

(** The passes of a run that end in [as++], one after the other. *)
Inductive adapt_reaches
    : SpaceT -> Z -> bool -> SpaceT -> Z -> bool -> Prop :=
| adapt_reaches_here sp as_ s : adapt_reaches sp as_ s sp as_ s
| adapt_reaches_next sp as_ s sp1 s1 sp' as' s' :
    adapt_step sp as_ s = Some (StepNext sp1 s1) ->
    adapt_reaches sp1 (as_ + 1) s1 sp' as' s' ->
    adapt_reaches sp as_ s sp' as' s'.

End AdaptLoop.

(** A problem to run [main] on: the one unknown of [one_dof_env], a
    reference space that is the coarse space, and an error estimate
    that is the distance of the coefficient from 1. *)
Definition one_dof_adapt_env : AdaptEnv (list float) unit :=
  mkAdaptEnv (list float) unit
    one_dof_env
    (fun n => repeat 0%float (Z.to_nat n))
    [0%float]
    (fun s => s)
    (fun s r => (abs (nth 0 s 0 - 1), [])%float)
    (fun s => abs (nth 0 s 0 - 1)%float)
    (fun _ s r => (s, r))
    (fun _ => 1%Z)
    (fun _ => 1%Z)
    (fun _ => 1%Z).

(** The same with an adaptivity step in it: a space holds one
    coefficient for each degree of freedom, the reference space has one
    more, [adapt] adds one, and the error estimate is 1 (that is 100
    per cent) on a space with one coefficient and 0 on a larger one. *)
Definition two_pass_adapt_env : AdaptEnv (list float) unit :=
  mkAdaptEnv (list float) unit
    one_dof_env
    (fun n => repeat 0%float (Z.to_nat n))
    [0%float]
    (fun s => s ++ [0%float])
    (fun s r => (if (length s <? 2)%nat then 1%float else 0%float, []))
    (fun s => 0%float)
    (fun _ s r => (s ++ [0%float], r))
    (fun s => Z.of_nat (length s))
    (fun _ => 1%Z)
    (fun _ => 1%Z).

(* ================================================================= *)
(** * Properties *)

(* ----------------------------------------------------------------- *)
(** ** PetscMatrix::add *)

Lemma to_PetscInt_inj (m m' : Z) :
  (0 <= m < 2 ^ 32)%Z -> (0 <= m' < 2 ^ 32)%Z ->
  to_PetscInt m = to_PetscInt m' -> m = m'.
Proof.
  unfold to_PetscInt. intros Hm Hm'.
  destruct (Z.ltb_spec m (2 ^ 31)), (Z.ltb_spec m' (2 ^ 31)); lia.
Qed.

Section MatSetValueFacts.
Context {PetscScalar : Type}.
Variable add : PetscScalar -> PetscScalar -> PetscScalar.

Lemma MatSetValue_add_lookup (mat : gmap (Z * Z) PetscScalar) (i j : Z)
    (v : PetscScalar) :
  MatSetValue add mat i j v ADD_VALUES !! (i, j) =
  Some (match mat !! (i, j) with
        | Some old => add old v
        | None => v
        end).
Proof.
  unfold MatSetValue. destruct (mat !! (i, j)); apply lookup_insert_eq.
Qed.

Lemma MatSetValue_lookup_ne (mat : gmap (Z * Z) PetscScalar) (i j : Z)
    (v : PetscScalar) (mode : InsertMode) (k : Z * Z) :
  k <> (i, j) -> MatSetValue add mat i j v mode !! k = mat !! k.
Proof.
  intros Hk. unfold MatSetValue.
  destruct mode, (mat !! (i, j)); apply lookup_insert_ne; congruence.
Qed.

End MatSetValueFacts.

(** C9, as the code has it.  In every instantiation,
    [PetscMatrix::add(m, n, v)] with [v == 0.0] returns with the matrix
    object as it was: no entry is created or changed.  With [v != 0.0]
    it throws, the matrix untouched, when [to_petsc] has no value for
    [v] (a complex [Scalar] on a PETSc without complex numbers);
    otherwise it returns, the entry (m, n) holds its old value plus
    [to_petsc(v)] ([to_petsc(v)] itself when it was not stored), and
    every other entry and the other fields of the object are as
    before. *)
Theorem PetscMatrix_add_skips_zero_accumulates_nonzero
    {PetscScalar Scalar : Type} (T : Instantiation PetscScalar Scalar)
    (M : PetscMatrix PetscScalar) (m n : Z) (v : Scalar) :
  (neq_zero T v = false -> PetscMatrix_add T M m n v = Returns M) /\
  (neq_zero T v = true ->
   match to_petsc T v with
   | None => PetscMatrix_add T M m n v = Throws
   | Some pv =>
       exists M' : PetscMatrix PetscScalar,
         PetscMatrix_add T M m n v = Returns M' /\
         matrix M' !! (to_PetscInt m, to_PetscInt n) =
           Some (match matrix M !! (to_PetscInt m, to_PetscInt n) with
                 | Some old => petsc_add T old pv
                 | None => pv
                 end) /\
         (forall k : Z * Z,
            k <> (to_PetscInt m, to_PetscInt n) ->
            matrix M' !! k = matrix M !! k) /\
         inited M' = inited M /\ nnz M' = nnz M /\ size M' = size M
   end).
Proof.
  unfold PetscMatrix_add. split; intros Hv; rewrite Hv; [reflexivity|].
  destruct (to_petsc T v) as [pv|]; [|reflexivity].
  eexists. split; [reflexivity|]. cbn [matrix inited nnz size].
  split; [apply MatSetValue_add_lookup|].
  split; [|auto].
  intros k Hk. now apply MatSetValue_lookup_ne.
Qed.

(** C9 as the claim words it fails for a complex [Scalar] on a PETSc
    without complex numbers: [1 + 0i] is not zero, and [add] throws
    instead of accumulating it. *)
Lemma PetscMatrix_add_complex_throws :
  neq_zero real_complex (1%float, 0%float) = true /\
  PetscMatrix_add real_complex (mkPetscMatrix ∅ true 0 2) 0 0
    (1%float, 0%float) = Throws.
Proof. split; reflexivity. Qed.

(** For [PetscMatrix<double>] without [PETSC_USE_COMPLEX] the claim
    holds as it is worded. *)
Lemma PetscMatrix_double_add (M : PetscMatrix float) (m n : Z) (v : float) :
  ((v =? 0)%float = true -> PetscMatrix_add real_double M m n v = Returns M) /\
  ((v =? 0)%float = false ->
   exists M' : PetscMatrix float,
     PetscMatrix_add real_double M m n v = Returns M' /\
     matrix M' !! (to_PetscInt m, to_PetscInt n) =
       Some (match matrix M !! (to_PetscInt m, to_PetscInt n) with
             | Some old => (old + v)%float
             | None => v
             end) /\
     (forall k : Z * Z,
        k <> (to_PetscInt m, to_PetscInt n) ->
        matrix M' !! k = matrix M !! k) /\
     inited M' = inited M /\ nnz M' = nnz M /\ size M' = size M).
Proof.
  unfold PetscMatrix_add. cbn [neq_zero to_petsc petsc_add real_double].
  unfold double_neq_zero.
  split; intros Hv; rewrite Hv; cbn [negb]; [reflexivity|].
  eexists. split; [reflexivity|]. cbn [matrix inited nnz size].
  split; [apply MatSetValue_add_lookup|].
  split; [|auto].
  intros k Hk. now apply MatSetValue_lookup_ne.
Qed.

(** A call of [add] that returns left the PETSc matrix alone or made
    one [MatSetValue] on it. *)
Lemma PetscMatrix_add_frame
    {PetscScalar Scalar : Type} (T : Instantiation PetscScalar Scalar)
    (M M' : PetscMatrix PetscScalar) (m n : Z) (v : Scalar) :
  PetscMatrix_add T M m n v = Returns M' ->
  matrix M' = matrix M \/
  exists pv,
    matrix M' =
    MatSetValue (petsc_add T) (matrix M) (to_PetscInt m) (to_PetscInt n) pv
      ADD_VALUES.
Proof.
  unfold PetscMatrix_add.
  destruct (neq_zero T v).
  - destruct (to_petsc T v) as [pv|]; [|discriminate].
    intros HR. right. exists pv. now inversion HR.
  - intros HR. left. now inversion HR.
Qed.

(** The entries of two different index pairs are different entries:
    [add(m, n, v)] leaves the entry of every other pair of
    [unsigned int]s as it was. *)
Lemma PetscMatrix_add_other_entry
    {PetscScalar Scalar : Type} (T : Instantiation PetscScalar Scalar)
    (M M' : PetscMatrix PetscScalar) (m n m' n' : Z) (v : Scalar) :
  (0 <= m < 2 ^ 32)%Z -> (0 <= n < 2 ^ 32)%Z ->
  (0 <= m' < 2 ^ 32)%Z -> (0 <= n' < 2 ^ 32)%Z ->
  (m', n') <> (m, n) ->
  PetscMatrix_add T M m n v = Returns M' ->
  matrix M' !! (to_PetscInt m', to_PetscInt n') =
  matrix M !! (to_PetscInt m', to_PetscInt n').
Proof.
  intros Hm Hn Hm' Hn' Hne HR.
  assert (Hkey : (to_PetscInt m', to_PetscInt n')
                 <> (to_PetscInt m, to_PetscInt n)).
  { intros [= H1 H2]. apply Hne. f_equal; eapply to_PetscInt_inj; eauto. }
  destruct (PetscMatrix_add_frame T M M' m n v HR) as [Hsame|Hset].
  - now rewrite Hsame.
  - destruct Hset as (pv & ->). now apply MatSetValue_lookup_ne.
Qed.

(** Both zeros are skipped; a NaN is not. *)
Example PetscMatrix_add_zeros (M : PetscMatrix float) :
  PetscMatrix_add real_double M 0 0 0%float = Returns M /\
  PetscMatrix_add real_double M 0 0 neg_zero = Returns M.
Proof. split; reflexivity. Qed.

Example PetscMatrix_add_twice :
  match PetscMatrix_add real_double (mkPetscMatrix ∅ true 0 2) 1 0 2.5%float
  with
  | Returns M1 => PetscMatrix_add real_double M1 1 0 0.25%float
  | _ => Throws
  end
  = Returns (mkPetscMatrix {[ (1%Z, 0%Z) := 2.75%float ]} true 0 2).
Proof. vm_compute. reflexivity. Qed.

Example PetscMatrix_add_nan :
  PetscMatrix_add real_double (mkPetscMatrix ∅ true 0 2) 1 1 nan
  = Returns (mkPetscMatrix {[ (1%Z, 1%Z) := nan ]} true 0 2).
Proof. vm_compute. reflexivity. Qed.

(* ----------------------------------------------------------------- *)
(** ** PetscLinearMatrixSolver::solve *)

(** [solve()] never reports a failure: it returns, or an [assert] on
    its own fields fails. *)
Lemma PetscLinearMatrixSolver_solve_never_throws
    (KSPSolve : gmap (Z * Z) float -> Vec -> PetscErrorCode * Vec)
    (s : PetscLinearMatrixSolver) :
  PetscLinearMatrixSolver_solve KSPSolve s <> Throws.
Proof.
  unfold PetscLinearMatrixSolver_solve.
  destruct (solver_m s), (solver_rhs s); try discriminate.
  destruct (KSPSolve _ _); discriminate.
Qed.

(** The error code of [KSPSolve] has no influence on what [solve()]
    does: two runs of [KSPSolve] that leave the same [x] give the same
    result, whatever their codes. *)
Lemma PetscLinearMatrixSolver_solve_ignores_ec
    (K1 K2 : gmap (Z * Z) float -> Vec -> PetscErrorCode * Vec)
    (s : PetscLinearMatrixSolver) :
  (forall A b, snd (K1 A b) = snd (K2 A b)) ->
  PetscLinearMatrixSolver_solve K1 s = PetscLinearMatrixSolver_solve K2 s.
Proof.
  intros HK. unfold PetscLinearMatrixSolver_solve.
  destruct (solver_m s) as [m|], (solver_rhs s) as [rhs|]; try reflexivity.
  specialize (HK (matrix m) (vec rhs)).
  destruct (K1 _ _), (K2 _ _). cbn in HK. now subst.
Qed.

(** C4. The linear system (0) x = (1) cannot be solved and [KSPSolve]
    says so with a non-zero error code; [solve()] returns all the same,
    with the untouched [x] as the solution.  The caller gets no sign of
    the failure. *)
Theorem PetscLinearMatrixSolver_solve_hides_failure :
  (fst (KSPSolve_zero_pivot (matrix singular_matrix) (vec singular_rhs))
     =? 0)%Z = false /\
  PetscLinearMatrixSolver_solve KSPSolve_zero_pivot singular_solver =
    Returns (mkPetscSolver (Some singular_matrix) (Some singular_rhs)
               [0%float]).
Proof. split; vm_compute; reflexivity. Qed.

(* ----------------------------------------------------------------- *)
(** ** InitialSolutionHeatTransfer *)

(** The partial derivatives of [value_R]: it is linear in each
    argument, so every difference quotient is the slope itself. *)
Lemma value_R_partial_x (x y : R) :
  derivable_pt_lim (fun t => value_R t y) x ((y + 10) / 100)%R.
Proof.
  intros eps Heps. exists (mkposreal 1 Rlt_0_1). intros h Hh _.
  unfold value_R.
  replace (((x + h + 10) * (y + 10) / 100 - (x + 10) * (y + 10) / 100) / h
           - (y + 10) / 100)%R with 0%R by (field; exact Hh).
  rewrite Rabs_R0. exact Heps.
Qed.

Lemma value_R_partial_y (x y : R) :
  derivable_pt_lim (fun t => value_R x t) y ((x + 10) / 100)%R.
Proof.
  intros eps Heps. exists (mkposreal 1 Rlt_0_1). intros h Hh _.
  unfold value_R.
  replace (((x + 10) * (y + h + 10) / 100 - (x + 10) * (y + 10) / 100) / h
           - (x + 10) / 100)%R with 0%R by (field; exact Hh).
  rewrite Rabs_R0. exact Heps.
Qed.

(** [derivatives] returns ten times the partial derivatives. *)
Lemma derivatives_R_ten_times (x y : R) :
  derivable_pt_lim (fun t => value_R t y) x (fst (derivatives_R x y) / 10)%R /\
  derivable_pt_lim (fun t => value_R x t) y (snd (derivatives_R x y) / 10)%R.
Proof.
  unfold derivatives_R. cbn [fst snd]. split.
  - replace ((y + 10) / 10 / 10)%R with ((y + 10) / 100)%R by field.
    apply value_R_partial_x.
  - replace ((x + 10) / 10 / 10)%R with ((x + 10) / 100)%R by field.
    apply value_R_partial_y.
Qed.

(** Away from the lines [y = -10] and [x = -10] the components of
    [derivatives] are not the partial derivatives of [value]. *)
Lemma derivatives_R_dx_wrong (x y : R) :
  (y <> -10)%R ->
  ~ derivable_pt_lim (fun t => value_R t y) x (fst (derivatives_R x y)).
Proof.
  intros Hy Hd.
  pose proof (uniqueness_limite _ _ _ _ Hd (value_R_partial_x x y)) as E.
  unfold derivatives_R in E. cbn [fst] in E. apply Hy. lra.
Qed.

Lemma derivatives_R_dy_wrong (x y : R) :
  (x <> -10)%R ->
  ~ derivable_pt_lim (fun t => value_R x t) y (snd (derivatives_R x y)).
Proof.
  intros Hx Hd.
  pose proof (uniqueness_limite _ _ _ _ Hd (value_R_partial_y x y)) as E.
  unfold derivatives_R in E. cbn [snd] in E. apply Hx. lra.
Qed.

(** C10. At the origin [derivatives] gives [dx = dy = 1] (in doubles
    and over the reals), while both partial derivatives of [value] are
    [1/10]. *)
Theorem InitialSolutionHeatTransfer_derivatives_at_origin :
  InitialSolutionHeatTransfer_derivatives 0 0 = (1%float, 1%float) /\
  derivatives_R 0 0 = (1%R, 1%R) /\
  derivable_pt_lim (fun t => value_R t 0) 0 (1 / 10)%R /\
  derivable_pt_lim (fun t => value_R 0 t) 0 (1 / 10)%R /\
  ~ derivable_pt_lim (fun t => value_R t 0) 0 (fst (derivatives_R 0 0)) /\
  ~ derivable_pt_lim (fun t => value_R 0 t) 0 (snd (derivatives_R 0 0)).
Proof.
  split; [vm_compute; reflexivity|].
  split; [unfold derivatives_R; f_equal; field|].
  split.
  { replace (1 / 10)%R with ((0 + 10) / 100)%R by field.
    apply value_R_partial_x. }
  split.
  { replace (1 / 10)%R with ((0 + 10) / 100)%R by field.
    apply value_R_partial_y. }
  split; [apply derivatives_R_dx_wrong | apply derivatives_R_dy_wrong]; lra.
Qed.

(* ----------------------------------------------------------------- *)
(** ** Newton's loop *)

Section NewtonFacts.
Context {SpaceT MatrixT : Type}.
Variable env : NewtonEnv SpaceT MatrixT.
Variable tol : float.
Variable max_iter : Z.

Local Abbreviation iter := (newton_iter env tol max_iter).
Local Abbreviation loop := (newton_loop env tol max_iter).
Local Abbreviation fulls := (full_iterations env tol max_iter).

(** The three ways a pass can end, read off [newton_iter]. *)
Lemma newton_iter_Break (st st' : NewtonState SpaceT) :
  iter st = Break st' ->
  st' = st /\
  (residual_norm_squared env (space st) <? tol * tol)%float = true /\
  (1 < it st)%Z.
Proof.
  unfold newton_iter, residual_norm_squared, converged_test.
  destruct (env_assemble env (space st)) as [mat rhs]. cbn [snd].
  destruct (res_norm_squared _ rhs <? tol * tol)%float;
    destruct (Z.ltb_spec 1 (it st)); cbn [andb];
    try (destruct (env_solve env mat _);
         [destruct (max_iter <=? it st)%Z|]; discriminate).
  intros [= <-]. auto.
Qed.

Lemma newton_iter_Next (st st' : NewtonState SpaceT) :
  iter st = Next st' ->
  exists mat rhs sol,
    env_assemble env (space st) = (mat, rhs) /\
    env_solve env mat (negate_rhs (env_get_num_dofs env (space st)) rhs)
      = Some sol /\
    coeff_vec st' =
      add_correction (env_get_num_dofs env (space st)) (coeff_vec st) sol /\
    space st' = env_vector_to_solution env (coeff_vec st') (space st) /\
    it st' = (it st + 1)%Z /\
    (it st < max_iter)%Z.
Proof.
  unfold newton_iter.
  destruct (env_assemble env (space st)) as [mat rhs].
  destruct (converged_test _ _ _); [discriminate|].
  destruct (env_solve env mat _) as [sol|] eqn:Hsol; [|discriminate].
  destruct (Z.leb_spec max_iter (it st)); [discriminate|].
  intros [= <-]. exists mat, rhs, sol. cbn. repeat split; auto.
Qed.

Lemma newton_iter_Fatal (e : NewtonError) (st st' : NewtonState SpaceT) :
  iter st = Fatal e st' ->
  exists mat rhs,
    env_assemble env (space st) = (mat, rhs) /\
    match e with
    | SolverFailure =>
        env_solve env mat (negate_rhs (env_get_num_dofs env (space st)) rhs)
          = None /\
        st' = st
    | DivergenceError =>
        exists sol,
          env_solve env mat
            (negate_rhs (env_get_num_dofs env (space st)) rhs) = Some sol /\
          coeff_vec st' =
            add_correction (env_get_num_dofs env (space st))
              (coeff_vec st) sol /\
          space st' = space st /\
          it st' = it st /\
          (max_iter <= it st)%Z
    end.
Proof.
  unfold newton_iter.
  destruct (env_assemble env (space st)) as [mat rhs].
  destruct (converged_test _ _ _); [discriminate|].
  destruct (env_solve env mat _) as [sol|] eqn:Hsol.
  - destruct (Z.leb_spec max_iter (it st)); [|discriminate].
    intros [= <- <-]. exists mat, rhs. split; [reflexivity|].
    exists sol. cbn. repeat split; auto.
  - intros [= <- <-]. exists mat, rhs. auto.
Qed.

(** The first pass ([it = 1]) never leaves the loop through [break]. *)
Lemma newton_iter_first_pass (st st' : NewtonState SpaceT) :
  it st = 1%Z -> iter st <> Break st'.
Proof.
  intros H1 HB. apply newton_iter_Break in HB. lia.
Qed.

(** [full_iterations] counts the increments of [it]. *)
Lemma full_iterations_it (k : nat) (st st' : NewtonState SpaceT) :
  fulls k st st' -> it st' = (it st + Z.of_nat k)%Z.
Proof.
  induction 1 as [st|k st st1 st' Hstep _ IH]; [lia|].
  apply newton_iter_Next in Hstep as (_ & _ & _ & _ & _ & _ & _ & Hit & _).
  lia.
Qed.

(** What the loop returns, whatever the fuel: it made some number of
    full iterations and then one pass that ended it. *)
Lemma newton_loop_result (fuel : nat) (st : NewtonState SpaceT)
    (r : NewtonResult SpaceT) :
  loop fuel st = Some r ->
  exists k st1,
    fulls k st st1 /\
    match r with
    | Converged st' => iter st1 = Break st'
    | Failed e st' => iter st1 = Fatal e st'
    end.
Proof.
  revert st. induction fuel as [|fuel IH]; intros st; cbn [newton_loop].
  - discriminate.
  - destruct (iter st) as [st'|e st'|st'] eqn:Hstep.
    + intros [= <-]. exists 0%nat, st. split; [constructor|exact Hstep].
    + intros [= <-]. exists 0%nat, st. split; [constructor|exact Hstep].
    + intros Hr. destruct (IH _ Hr) as (k & st1 & Hk & Hend).
      exists (S k), st1. split; [|exact Hend].
      econstructor; eassumption.
Qed.

(** The loop ends within [newton_fuel] passes: from a state with
    [it] between 1 and the limit, as many passes as there are values of [it] left up to
    [max_iter] are enough. *)
Lemma newton_loop_total (fuel : nat) (st : NewtonState SpaceT) :
  (1 <= it st <= Z.max 1 max_iter)%Z ->
  (Z.max 1 max_iter - it st < Z.of_nat fuel)%Z ->
  exists r, loop fuel st = Some r.
Proof.
  revert st. induction fuel as [|fuel IH]; intros st H1 Hfuel; [lia|].
  cbn [newton_loop].
  destruct (iter st) as [st'|e st'|st'] eqn:Hstep; eauto.
  apply newton_iter_Next in Hstep as (_ & _ & _ & _ & _ & _ & _ & Hit & Hlt).
  apply IH; lia.
Qed.

Lemma newton_total (s : SpaceT) (arr : list float) :
  exists r, newton env tol max_iter s arr = Some r.
Proof.
  unfold newton, newton_fuel, newton_init.
  apply newton_loop_total; cbn [it]; lia.
Qed.

(** [it] stays between 1 and [max 1 max_iter]: the counter of the
    source, an [int], does not overflow. *)
Lemma newton_loop_it_bound (k : nat) (st st' : NewtonState SpaceT) :
  (1 <= it st)%Z -> fulls k st st' ->
  (1 <= it st' <= Z.max (it st) max_iter)%Z.
Proof.
  intros H1 Hk. induction Hk as [st|k st st1 st' Hstep _ IH]; [lia|].
  apply newton_iter_Next in Hstep as (_ & _ & _ & _ & _ & _ & _ & Hit & Hlt).
  lia.
Qed.

(** After at least one full iteration the space holds the coefficient
    vector: the last thing a full iteration did to the space is
    [vector_to_solution(coeff_vec, space)]. *)
Lemma full_iterations_written_back (k : nat) (st st' : NewtonState SpaceT) :
  fulls (S k) st st' ->
  exists sp, space st' = env_vector_to_solution env (coeff_vec st') sp.
Proof.
  remember (S k) as n eqn:En. intros Hk. revert k En.
  induction Hk as [st|n st st1 st' Hstep Hrest IH]; intros k En;
    [discriminate|].
  destruct n as [|n].
  - inversion Hrest; subst.
    apply newton_iter_Next in Hstep as (_ & _ & _ & _ & _ & _ & Hsp & _).
    eauto.
  - eapply IH. reflexivity.
Qed.

End NewtonFacts.

(** C2. A Newton run (coarse or reference mesh: [tol] is the
    tolerance of either) that ends as converged ends in a pass whose
    squared residual norm is below [tol * tol], and that pass comes
    after at least one full iteration (assemble, linear solve, update):
    [it] is one more than the number of full iterations made.  The
    first pass never ends the loop as converged, whatever its
    residual. *)
Theorem newton_converged_only_after_full_iteration
    {SpaceT MatrixT : Type} (env : NewtonEnv SpaceT MatrixT)
    (tol : float) (max_iter : Z) (s : SpaceT) (arr : list float)
    (st' : NewtonState SpaceT) :
  newton env tol max_iter s arr = Some (Converged st') ->
  (residual_norm_squared env (space st') <? tol * tol)%float = true /\
  (exists k : nat,
     (1 <= k)%nat /\
     full_iterations env tol max_iter k (newton_init env s arr) st' /\
     it st' = (1 + Z.of_nat k)%Z) /\
  (forall st1 : NewtonState SpaceT,
     newton_iter env tol max_iter (newton_init env s arr) <> Break st1).
Proof.
  intros Hrun. unfold newton in Hrun.
  apply newton_loop_result in Hrun as (k & st1 & Hk & Hend).
  apply newton_iter_Break in Hend as (-> & Hres & Hit).
  pose proof (full_iterations_it _ _ _ _ _ _ Hk) as Hcount.
  unfold newton_init in Hcount at 1. cbn [it] in Hcount.
  split; [exact Hres|]. split.
  - exists k. repeat split; [lia|exact Hk|lia].
  - intros st2. now apply newton_iter_first_pass.
Qed.

(** The run on the problem with one unknown: one full iteration, then
    the exit test passes. *)
Lemma newton_converged_run :
  newton one_dof_env NEWTON_TOL_COARSE NEWTON_MAX_ITER [0%float] [] =
    Some (Converged (mkNewtonState [1%float] [1%float] 2)) /\
  ((residual_norm_squared one_dof_env [1%float]
      <? NEWTON_TOL_COARSE * NEWTON_TOL_COARSE)%float = true /\
   (exists k : nat,
      (1 <= k)%nat /\
      full_iterations one_dof_env NEWTON_TOL_COARSE NEWTON_MAX_ITER k
        (newton_init one_dof_env [0%float] [])
        (mkNewtonState [1%float] [1%float] 2) /\
      2%Z = (1 + Z.of_nat k)%Z) /\
   (forall st1 : NewtonState (list float),
      newton_iter one_dof_env NEWTON_TOL_COARSE NEWTON_MAX_ITER
        (newton_init one_dof_env [0%float] []) <> Break st1)).
Proof.
  split; [vm_compute; reflexivity|].
  apply (newton_converged_only_after_full_iteration one_dof_env
           NEWTON_TOL_COARSE NEWTON_MAX_ITER [0%float] []
           (mkNewtonState [1%float] [1%float] 2)).
  vm_compute; reflexivity.
Defined.

(** C3, as the code has it.  In every pass that reaches the update,
    the correction is added to the coefficient vector first; then [it]
    is tested against the maximum, before any increment; only a pass
    that passes the test copies the coefficients to the elements and
    increments [it].  So when a Newton run fails with
    [DivergenceError], the failing pass has added the correction and
    found [it >= max_iter], and has neither written the elements nor
    incremented [it]: the space is the one the pass started with, the
    space given to the run when the first pass fails, and otherwise
    what the pass before wrote back, that is the coefficients before
    the last correction. *)
Theorem newton_divergence_before_write_back
    {SpaceT MatrixT : Type} (env : NewtonEnv SpaceT MatrixT)
    (tol : float) (max_iter : Z) (s : SpaceT) (arr : list float)
    (st' : NewtonState SpaceT) :
  newton env tol max_iter s arr = Some (Failed DivergenceError st') ->
  (exists (k : nat) (st : NewtonState SpaceT) mat rhs sol,
    full_iterations env tol max_iter k (newton_init env s arr) st /\
    env_assemble env (space st) = (mat, rhs) /\
    env_solve env mat (negate_rhs (env_get_num_dofs env (space st)) rhs)
      = Some sol /\
    coeff_vec st' =
      add_correction (env_get_num_dofs env (space st)) (coeff_vec st) sol /\
    (max_iter <= it st)%Z /\
    it st' = it st /\
    it st = (1 + Z.of_nat k)%Z /\
    space st' = space st /\
    match k with
    | O => space st = s
    | S _ =>
        exists sp, space st = env_vector_to_solution env (coeff_vec st) sp
    end) /\
  (forall st1 st2 : NewtonState SpaceT,
     newton_iter env tol max_iter st1 = Next st2 ->
     (it st1 < max_iter)%Z /\
     space st2 = env_vector_to_solution env (coeff_vec st2) (space st1) /\
     it st2 = (it st1 + 1)%Z).
Proof.
  intros Hrun. split.
  - unfold newton in Hrun.
    apply newton_loop_result in Hrun as (k & st & Hk & Hend).
    apply newton_iter_Fatal in Hend
      as (mat & rhs & Hasm & sol & Hsol & Hy & Hsp & Hit & Hmax).
    pose proof (full_iterations_it _ _ _ _ _ _ Hk) as Hcount.
    unfold newton_init in Hcount at 1. cbn [it] in Hcount.
    exists k, st, mat, rhs, sol. repeat split; try assumption; try lia.
    destruct k as [|k].
    + inversion Hk; subst. reflexivity.
    + eapply full_iterations_written_back. exact Hk.
  - intros st1 st2 Hstep.
    apply newton_iter_Next in Hstep
      as (_ & _ & _ & _ & _ & _ & Hsp & Hit & Hlt).
    auto.
Qed.

Lemma float_neq_149_150 : [(-149)%float] <> [(-150)%float].
Proof.
  intros H.
  apply (f_equal (fun l => (nth 0 l 0 =? -149)%float)) in H.
  vm_compute in H. discriminate.
Qed.

(** The run that cannot converge fails in pass 150 with the
    coefficient -150 in the vector and -149 in the space. *)
Lemma newton_divergence_run :
  newton stuck_env NEWTON_TOL_COARSE NEWTON_MAX_ITER [0%float] [] =
    Some (Failed DivergenceError
            (mkNewtonState [(-149)%float] [(-150)%float] 150)) /\
  ((exists (k : nat) (st : NewtonState (list float)) mat rhs sol,
     full_iterations stuck_env NEWTON_TOL_COARSE NEWTON_MAX_ITER k
       (newton_init stuck_env [0%float] []) st /\
     env_assemble stuck_env (space st) = (mat, rhs) /\
     env_solve stuck_env mat
       (negate_rhs (env_get_num_dofs stuck_env (space st)) rhs) = Some sol /\
     [(-150)%float] =
       add_correction (env_get_num_dofs stuck_env (space st))
         (coeff_vec st) sol /\
     (NEWTON_MAX_ITER <= it st)%Z /\
     150%Z = it st /\
     it st = (1 + Z.of_nat k)%Z /\
     [(-149)%float] = space st /\
     match k with
     | O => space st = [0%float]
     | S _ =>
         exists sp,
           space st = env_vector_to_solution stuck_env (coeff_vec st) sp
     end) /\
   (forall st1 st2 : NewtonState (list float),
      newton_iter stuck_env NEWTON_TOL_COARSE NEWTON_MAX_ITER st1 = Next st2 ->
      (it st1 < NEWTON_MAX_ITER)%Z /\
      space st2 = env_vector_to_solution stuck_env (coeff_vec st2) (space st1) /\
      it st2 = (it st1 + 1)%Z)).
Proof.
  split; [vm_compute; reflexivity|].
  apply (newton_divergence_before_write_back stuck_env
           NEWTON_TOL_COARSE NEWTON_MAX_ITER [0%float] []
           (mkNewtonState [(-149)%float] [(-150)%float] 150)).
  vm_compute; reflexivity.
Defined.

(** C3 as the claim words it fails on this run: at the divergence
    failure the elements do not hold the last updated coefficients,
    and [it] has not gone past the maximum. *)
Lemma newton_divergence_elements_not_updated :
  exists st' : NewtonState (list float),
    newton stuck_env NEWTON_TOL_COARSE NEWTON_MAX_ITER [0%float] [] =
      Some (Failed DivergenceError st') /\
    env_solution_to_vector stuck_env (space st') (coeff_vec st')
      <> coeff_vec st' /\
    it st' = NEWTON_MAX_ITER.
Proof.
  exists (mkNewtonState [(-149)%float] [(-150)%float] 150).
  split; [vm_compute; reflexivity|].
  split; [exact float_neq_149_150|reflexivity].
Qed.

(** X15. A pass whose linear solve reports failure ends the run with
    [SolverFailure] at once: the state is the one the pass started
    with, and no second solve is tried. *)
Lemma newton_iter_solver_failure
    {SpaceT MatrixT : Type} (env : NewtonEnv SpaceT MatrixT)
    (tol : float) (max_iter : Z) (st : NewtonState SpaceT) :
  converged_test tol (residual_norm_squared env (space st)) (it st) = false ->
  env_solve env (fst (env_assemble env (space st)))
    (negate_rhs (env_get_num_dofs env (space st))
       (snd (env_assemble env (space st)))) = None ->
  newton_iter env tol max_iter st = Fatal SolverFailure st /\
  forall fuel, newton_loop env tol max_iter (S fuel) st
               = Some (Failed SolverFailure st).
Proof.
  unfold residual_norm_squared. intros Htest Hsolve.
  assert (Hiter : newton_iter env tol max_iter st = Fatal SolverFailure st).
  { unfold newton_iter.
    destruct (env_assemble env (space st)) as [mat rhs].
    cbn [fst snd] in *. now rewrite Htest, Hsolve. }
  split; [exact Hiter|]. intros fuel. cbn [newton_loop]. now rewrite Hiter.
Qed.

Lemma newton_iter_solver_failure_pass :
  newton_iter singular_env NEWTON_TOL_COARSE NEWTON_MAX_ITER
    (mkNewtonState [0%float] [0%float] 1)
  = Fatal SolverFailure (mkNewtonState [0%float] [0%float] 1) /\
  forall fuel,
    newton_loop singular_env NEWTON_TOL_COARSE NEWTON_MAX_ITER (S fuel)
      (mkNewtonState [0%float] [0%float] 1)
    = Some (Failed SolverFailure (mkNewtonState [0%float] [0%float] 1)).
Proof.
  apply (newton_iter_solver_failure singular_env NEWTON_TOL_COARSE
           NEWTON_MAX_ITER (mkNewtonState [0%float] [0%float] 1));
    vm_compute; reflexivity.
Defined.

Example newton_solver_failure_run :
  newton singular_env NEWTON_TOL_COARSE NEWTON_MAX_ITER [0%float] [] =
    Some (Failed SolverFailure (mkNewtonState [0%float] [0%float] 1)).
Proof. vm_compute. reflexivity. Qed.

(* ----------------------------------------------------------------- *)
(** ** The walk over the active elements *)

Section WalkFacts.
Context {A : Type}.
Variable f : A -> ElemData -> A * ElemData.

Lemma walk_active_app (a : A) (es1 es2 : list ElemData) :
  walk_active f a (es1 ++ es2) =
  let '(a1, es1') := walk_active f a es1 in
  let '(a2, es2') := walk_active f a1 es2 in
  (a2, es1' ++ es2').
Proof.
  revert a. induction es1 as [|e es1 IH]; intros a; cbn.
  - now destruct (walk_active f a es2).
  - destruct (f a e) as [a0 e']. rewrite IH.
    destruct (walk_active f a0 es1) as [a1 es1'].
    now destruct (walk_active f a1 es2).
Qed.

(** Walking a tree is walking its active elements. *)
Lemma walk_element_active (a : A) (t : Element) :
  walk_active f a (active_below t) =
  (fst (walk_element f a t), active_below (snd (walk_element f a t))).
Proof.
  revert a. induction t as [e|e son0 IH0 son1 IH1]; intros a; cbn.
  - now destruct (f a e).
  - rewrite walk_active_app, IH0.
    destruct (walk_element f a son0) as [a0 son0']. cbn [fst snd].
    rewrite IH1. now destruct (walk_element f a0 son1).
Qed.

Lemma walk_elements_active (a : A) (ts : list Element) :
  walk_active f a (flat_map active_below ts) =
  (fst (walk_elements f a ts),
   flat_map active_below (snd (walk_elements f a ts))).
Proof.
  revert a. induction ts as [|t ts IH]; intros a; cbn; [reflexivity|].
  rewrite walk_active_app, walk_element_active.
  destruct (walk_element f a t) as [a0 t']. cbn [fst snd].
  rewrite IH. now destruct (walk_elements f a0 ts).
Qed.

(** A step that changes nothing when it is made again from the same
    value gives a walk that changes nothing when it is made again. *)
Hypothesis f_again :
  forall a e a' e', f a e = (a', e') -> f a e' = (a', e').

Lemma walk_element_again (a a' : A) (t t' : Element) :
  walk_element f a t = (a', t') -> walk_element f a t' = (a', t').
Proof.
  revert a a' t'. induction t as [e|e son0 IH0 son1 IH1]; intros a a' t'; cbn.
  - destruct (f a e) as [a0 e'] eqn:Hf. intros [= <- <-]. cbn.
    now rewrite (f_again _ _ _ _ Hf).
  - destruct (walk_element f a son0) as [a0 son0'] eqn:H0.
    destruct (walk_element f a0 son1) as [a1 son1'] eqn:H1.
    intros [= <- <-]. cbn.
    now rewrite (IH0 _ _ _ H0), (IH1 _ _ _ H1).
Qed.

Lemma walk_elements_again (a a' : A) (ts ts' : list Element) :
  walk_elements f a ts = (a', ts') -> walk_elements f a ts' = (a', ts').
Proof.
  revert a a' ts'. induction ts as [|t ts IH]; intros a a' ts'; cbn.
  - now intros [= <- <-].
  - destruct (walk_element f a t) as [a0 t'] eqn:H0.
    destruct (walk_elements f a0 ts) as [a1 ts1] eqn:H1.
    intros [= <- <-]. cbn.
    now rewrite (walk_element_again _ _ _ _ H0), (IH _ _ _ H1).
Qed.

End WalkFacts.

(* ----------------------------------------------------------------- *)
(** ** assign_dofs: the indices it gives *)

Lemma assign_row_dofs (fl fr : option float) (j n : nat)
    (row : list LocalCoeff) (n' : nat) (row' : list LocalCoeff) :
  assign_row fl fr j n row = (n', row') ->
  n <= n' /\
  omap lc_dof row' = seq n (n' - n) /\
  length row' = length row.
Proof.
  revert j n n' row'. induction row as [|lc row IH]; intros j n n' row'; cbn.
  - intros [= <- <-]. rewrite Nat.sub_diag. auto.
  - destruct (fixed_value fl fr j) as [v|].
    + destruct (assign_row fl fr (S j) n row) as [n1 r] eqn:Hr.
      intros [= <- <-]. apply IH in Hr as (Hle & Hdofs & Hlen).
      cbn. auto.
    + destruct (assign_row fl fr (S j) (S n) row) as [n1 r] eqn:Hr.
      intros [= <- <-]. apply IH in Hr as (Hle & Hdofs & Hlen).
      cbn. rewrite Hdofs.
      replace (n1 - n) with (S (n1 - S n)) by lia.
      cbn. repeat split; [lia|congruence].
Qed.

Lemma assign_rows_dofs (bl br : list BC) (n : nat)
    (rows : list (list LocalCoeff)) (n' : nat)
    (rows' : list (list LocalCoeff)) :
  assign_rows bl br n rows = (n', rows') ->
  n <= n' /\
  omap lc_dof (concat rows') = seq n (n' - n) /\
  map length rows' = map length rows.
Proof.
  revert bl br n n' rows'.
  induction rows as [|row rows IH]; intros bl br n n' rows'; cbn.
  - intros [= <- <-]. rewrite Nat.sub_diag. auto.
  - destruct (assign_row _ _ 0 n row) as [n0 row0] eqn:Hrow.
    destruct (assign_rows (tail bl) (tail br) n0 rows) as [n1 rows1] eqn:Hrows.
    intros [= <- <-].
    apply assign_row_dofs in Hrow as (Hle0 & Hdofs0 & Hlen0).
    apply IH in Hrows as (Hle1 & Hdofs1 & Hlen1).
    cbn. rewrite omap_app, Hdofs0, Hdofs1, Hlen0, Hlen1.
    split; [lia|]. split; [|reflexivity].
    replace (n1 - n) with ((n0 - n) + (n1 - n0)) by lia.
    rewrite seq_app. do 2 f_equal. lia.
Qed.

Lemma assign_element_dofs (bl br : list BC) (N i n : nat) (e : ElemData)
    (i' n' : nat) (e' : ElemData) :
  assign_element bl br N (i, n) e = ((i', n'), e') ->
  i' = S i /\
  n <= n' /\
  omap lc_dof (local_coeffs_of e') = seq n (n' - n) /\
  map length (e_coeffs e') = map length (e_coeffs e) /\
  e_p e' = e_p e.
Proof.
  unfold assign_element, local_coeffs_of.
  destruct (assign_rows _ _ n (e_coeffs e)) as [n0 rows] eqn:Hrows.
  intros [= <- <- <-]. cbn.
  apply assign_rows_dofs in Hrows as (Hle & Hdofs & Hlen). auto.
Qed.

Lemma walk_assign_dofs (bl br : list BC) (N : nat) (es : list ElemData)
    (i n i' n' : nat) (es' : list ElemData) :
  walk_active (assign_element bl br N) (i, n) es = ((i', n'), es') ->
  i' = i + length es /\
  n <= n' /\
  omap lc_dof (flat_map local_coeffs_of es') = seq n (n' - n) /\
  length es' = length es.
Proof.
  revert i n i' n' es'.
  induction es as [|e es IH]; intros i n i' n' es'; cbn [walk_active length].
  - intros [= <- <- <-]. rewrite Nat.sub_diag. cbn. auto with lia.
  - destruct (assign_element bl br N (i, n) e) as [[i0 n0] e0] eqn:He.
    destruct (walk_active (assign_element bl br N) (i0, n0) es)
      as [[i1 n1] es1] eqn:Hes.
    intros [= <- <- <-].
    apply assign_element_dofs in He as (-> & Hle0 & Hdofs0 & _).
    apply IH in Hes as (-> & Hle1 & Hdofs1 & Hlen1).
    cbn [flat_map length]. rewrite omap_app, Hdofs0, Hdofs1, Hlen1.
    split; [lia|]. split; [lia|]. split; [|reflexivity].
    replace (n1 - n) with ((n0 - n) + (n1 - n0)) by lia.
    rewrite seq_app. do 2 f_equal. lia.
Qed.

(** What the walk of [assign_dofs] is on the active elements. *)
Lemma assign_dofs_walk (s : Space) :
  walk_active
    (assign_element (bc_left s) (bc_right s) (get_n_active_elem s))
    (0, 0) (active_elements s)
  = ((get_n_active_elem (assign_dofs s), n_dof (assign_dofs s)),
     active_elements (assign_dofs s)).
Proof.
  unfold active_elements at 1. rewrite walk_elements_active.
  unfold assign_dofs.
  destruct (walk_elements _ (0, 0) (elems s)) as [[i n] ts] eqn:Hw.
  cbn [fst snd n_dof].
  pose proof (walk_elements_active
                (assign_element (bc_left s) (bc_right s)
                   (get_n_active_elem s)) (0, 0) (elems s)) as Hflat.
  rewrite Hw in Hflat. cbn [fst snd] in Hflat.
  apply walk_assign_dofs in Hflat as (-> & _ & _ & Hlen).
  unfold get_n_active_elem, active_elements at 1. cbn [elems].
  now rewrite Hlen.
Qed.

(** After [assign_dofs] the free local coefficients carry the indices
    0, 1, ..., [n_dof - 1] in the order of the walk. *)
Lemma assign_dofs_enumerates (s : Space) :
  omap lc_dof (local_coeffs (assign_dofs s)) = seq 0 (n_dof (assign_dofs s)).
Proof.
  pose proof (assign_dofs_walk s) as Hw.
  apply walk_assign_dofs in Hw as (_ & _ & Hdofs & _).
  now rewrite Nat.sub_0_r in Hdofs.
Qed.

Lemma assign_dofs_n_active (s : Space) :
  get_n_active_elem (assign_dofs s) = get_n_active_elem s.
Proof.
  pose proof (assign_dofs_walk s) as Hw.
  apply walk_assign_dofs in Hw as (_ & _ & _ & Hlen). exact Hlen.
Qed.

(* ----------------------------------------------------------------- *)
(** ** vector_to_solution and solution_to_vector *)

Lemma active_below_map_active (g : ElemData -> ElemData) (t : Element) :
  active_below (map_active g t) = map g (active_below t).
Proof.
  induction t as [e|e son0 IH0 son1 IH1]; cbn; [reflexivity|].
  now rewrite IH0, IH1, map_app.
Qed.

Lemma local_coeffs_of_load (y : list float) (e : ElemData) :
  local_coeffs_of (load_element y e) = map (load y) (local_coeffs_of e).
Proof.
  unfold local_coeffs_of, load_element. cbn [e_coeffs].
  now rewrite concat_map.
Qed.

(** [vector_to_solution] touches the values of the local coefficients
    and nothing else. *)
Lemma local_coeffs_vector_to_solution (y : list float) (s : Space) :
  local_coeffs (vector_to_solution y s) = map (load y) (local_coeffs s).
Proof.
  unfold local_coeffs, active_elements, vector_to_solution. cbn [elems].
  induction (elems s) as [|t ts IH]; cbn [map flat_map]; [reflexivity|].
  rewrite !flat_map_app, map_app, IH. f_equal.
  rewrite active_below_map_active.
  induction (active_below t) as [|e es IHe]; cbn [map flat_map];
    [reflexivity|].
  now rewrite map_app, IHe, local_coeffs_of_load.
Qed.

(** Local coefficients whose free indices are [a], [a+1], ...,
    [a+b-1]: loading them from [y] and storing them into [arr] copies
    that range of [y] into [arr]. *)
Lemma store_load_range (y : list float) (L : list LocalCoeff)
    (a b : nat) (arr : list float) (k : nat) :
  omap lc_dof L = seq a b ->
  length arr = length y ->
  fold_left store (map (load y) L) arr !! k =
  if decide (a <= k < a + b) then y !! k else arr !! k.
Proof.
  revert a b arr. induction L as [|lc L IH]; intros a b arr Hdofs Hlen.
  - destruct b; [|discriminate]. cbn. case_decide; [lia|reflexivity].
  - cbn [map fold_left]. cbn [omap list_omap] in Hdofs.
    unfold load at 2, store at 2.
    destruct (lc_dof lc) as [d|] eqn:Hd; cbn [lc_dof lc_val].
    + destruct b as [|b]; [discriminate|]. cbn [seq] in Hdofs.
      injection Hdofs as -> Hrest.
      rewrite (IH (S a) b); [|exact Hrest|now rewrite length_insert].
      destruct (decide (k = a)) as [->|Hk].
      * rewrite decide_False by lia. rewrite decide_True by lia.
        destruct (y !! a) as [ya|] eqn:Hya.
        -- apply list_lookup_insert_eq.
           apply lookup_lt_Some in Hya. lia.
        -- apply lookup_ge_None in Hya.
           rewrite list_insert_ge by lia. apply lookup_ge_None. lia.
      * rewrite list_lookup_insert_ne by congruence.
        repeat case_decide; try reflexivity; lia.
    + rewrite Hd. now apply IH.
Qed.

(* ----------------------------------------------------------------- *)
(** ** assign_dofs made again *)

Lemma assign_row_again (fl fr : option float) (j n : nat)
    (row : list LocalCoeff) (n' : nat) (row' : list LocalCoeff) :
  assign_row fl fr j n row = (n', row') ->
  assign_row fl fr j n row' = (n', row').
Proof.
  revert j n n' row'. induction row as [|lc row IH]; intros j n n' row'; cbn.
  - now intros [= <- <-].
  - destruct (fixed_value fl fr j) as [v|] eqn:Hfix.
    + destruct (assign_row fl fr (S j) n row) as [n1 r] eqn:Hr.
      intros [= <- <-]. cbn. now rewrite Hfix, (IH _ _ _ _ Hr).
    + destruct (assign_row fl fr (S j) (S n) row) as [n1 r] eqn:Hr.
      intros [= <- <-]. cbn. now rewrite Hfix, (IH _ _ _ _ Hr).
Qed.

Lemma assign_rows_again (bl br : list BC) (n : nat)
    (rows : list (list LocalCoeff)) (n' : nat)
    (rows' : list (list LocalCoeff)) :
  assign_rows bl br n rows = (n', rows') ->
  assign_rows bl br n rows' = (n', rows').
Proof.
  revert bl br n n' rows'.
  induction rows as [|row rows IH]; intros bl br n n' rows'; cbn.
  - now intros [= <- <-].
  - destruct (assign_row _ _ 0 n row) as [n0 row0] eqn:Hrow.
    destruct (assign_rows (tail bl) (tail br) n0 rows) as [n1 rows1] eqn:Hrows.
    intros [= <- <-]. cbn.
    now rewrite (assign_row_again _ _ _ _ _ _ _ Hrow), (IH _ _ _ _ _ Hrows).
Qed.

Lemma assign_element_again (bl br : list BC) (N : nat) (a : nat * nat)
    (e : ElemData) (a' : nat * nat) (e' : ElemData) :
  assign_element bl br N a e = (a', e') ->
  assign_element bl br N a e' = (a', e').
Proof.
  unfold assign_element. destruct a as [i n].
  destruct (assign_rows _ _ n (e_coeffs e)) as [n0 rows] eqn:Hrows.
  intros [= <- <-]. cbn [e_coeffs e_x1 e_x2 e_p].
  now rewrite (assign_rows_again _ _ _ _ _ _ Hrows).
Qed.

(** [assign_dofs] is idempotent: the second enumeration returns the
    same count and leaves every index (and everything else) as the
    first one made it. *)
Lemma assign_dofs_idempotent (s : Space) :
  assign_dofs (assign_dofs s) = assign_dofs s.
Proof.
  unfold assign_dofs at 1.
  rewrite assign_dofs_n_active.
  unfold assign_dofs.
  destruct (walk_elements _ (0, 0) (elems s)) as [[i n] ts] eqn:Hw.
  cbn [elems bc_left bc_right n_eq].
  rewrite (walk_elements_again _ (assign_element_again _ _ _) _ _ _ _ Hw).
  reflexivity.
Qed.

(* ----------------------------------------------------------------- *)
(** ** assign_dofs: the count it returns *)

Lemma fixed_value_interior (fl fr : option float) (j : nat) :
  2 <= j -> fixed_value fl fr j = None.
Proof. destruct j as [|[|j]]; [lia|lia|reflexivity]. Qed.

Lemma assign_row_interior (fl fr : option float) (j n : nat)
    (row : list LocalCoeff) :
  2 <= j -> fst (assign_row fl fr j n row) = n + length row.
Proof.
  revert j n. induction row as [|lc row IH]; intros j n Hj; cbn; [lia|].
  rewrite fixed_value_interior by exact Hj.
  specialize (IH (S j) (S n) ltac:(lia)).
  destruct (assign_row fl fr (S j) (S n) row). cbn [fst] in *. lia.
Qed.

(** A coefficient vector with its two end-point coefficients: one
    index for each coefficient that is not fixed. *)
Lemma assign_row_count (fl fr : option float) (n : nat)
    (row : list LocalCoeff) :
  2 <= length row ->
  fst (assign_row fl fr 0 n row) + is_fixed fl + is_fixed fr
  = n + length row.
Proof.
  destruct row as [|lc0 [|lc1 row]]; cbn [length]; [lia|lia|]. intros _.
  cbn [assign_row fixed_value].
  destruct fl, fr; cbn [is_fixed];
    match goal with
    | |- context [assign_row ?a ?b 2 ?m row] =>
        pose proof (assign_row_interior a b 2 m row ltac:(lia));
        destruct (assign_row a b 2 m row)
    end; cbn [fst] in *; lia.
Qed.

Lemma is_fixed_dirichlet_head (bcs : list BC) :
  is_fixed (dirichlet_head bcs) + count_dirichlet (tail bcs)
  = count_dirichlet bcs.
Proof. destruct bcs as [|[v|] bcs]; reflexivity. Qed.

Lemma assign_rows_count (bl br : list BC) (n : nat)
    (rows : list (list LocalCoeff)) :
  Forall (fun row => 2 <= length row) rows ->
  length bl <= length rows ->
  length br <= length rows ->
  fst (assign_rows bl br n rows) + count_dirichlet bl + count_dirichlet br
  = n + length (concat rows).
Proof.
  intros Hrows. revert bl br n.
  induction Hrows as [|row rows Hrow _ IH]; intros bl br n Hbl Hbr.
  - destruct bl, br; cbn in *; lia.
  - cbn [assign_rows concat].
    pose proof (assign_row_count (dirichlet_head bl) (dirichlet_head br)
                  n row Hrow) as H0.
    destruct (assign_row _ _ 0 n row) as [n0 row0]. cbn [fst] in H0.
    specialize (IH (tail bl) (tail br) n0).
    destruct (assign_rows (tail bl) (tail br) n0 rows) as [n1 rows1].
    cbn [fst] in *.
    pose proof (is_fixed_dirichlet_head bl).
    pose proof (is_fixed_dirichlet_head br).
    rewrite length_app.
    assert (length (tail bl) <= length rows)
      by (destruct bl; cbn [tail length] in *; lia).
    assert (length (tail br) <= length rows)
      by (destruct br; cbn [tail length] in *; lia).
    lia.
Qed.

Lemma elem_wf_rows (neq : nat) (e : ElemData) :
  elem_wf neq e -> Forall (fun row => 2 <= length row) (e_coeffs e).
Proof.
  intros (Hp & _ & Hrows). eapply Forall_impl; [exact Hrows|].
  cbn. intros row ->. lia.
Qed.

(** The number of local coefficients of an element with [neq]
    equations and degree [p]. *)
Lemma elem_wf_size (neq : nat) (e : ElemData) :
  elem_wf neq e -> length (local_coeffs_of e) = neq * S (e_p e).
Proof.
  intros (_ & Hlen & Hrows). unfold local_coeffs_of. subst neq.
  induction Hrows as [|row rows Hrow _ IH]; cbn [concat length]; [lia|].
  rewrite length_app, IH, Hrow. lia.
Qed.

Lemma assign_element_count (bl br : list BC) (N neq i n : nat)
    (e : ElemData) :
  elem_wf neq e -> length bl = neq -> length br = neq ->
  snd (fst (assign_element bl br N (i, n) e))
    + at_first i (count_dirichlet bl) + at_last i N (count_dirichlet br)
  = n + length (local_coeffs_of e).
Proof.
  intros Hwf Hbl Hbr. unfold assign_element, at_first, at_last, local_coeffs_of.
  pose proof (elem_wf_rows _ _ Hwf) as Hrows.
  destruct Hwf as (_ & Hlen & _).
  pose proof (assign_rows_count
                (if (i =? 0)%nat then bl else [])
                (if (S i =? N)%nat then br else []) n (e_coeffs e) Hrows)
    as Hcount.
  destruct (assign_rows _ _ n (e_coeffs e)) as [n0 rows]. cbn [fst snd] in *.
  destruct (i =? 0)%nat, (S i =? N)%nat; cbn [length count_dirichlet] in *; lia.
Qed.

Lemma walk_assign_count (bl br : list BC) (N neq : nat)
    (es : list ElemData) (i n : nat) :
  Forall (elem_wf neq) es -> length bl = neq -> length br = neq ->
  i + length es <= N ->
  snd (fst (walk_active (assign_element bl br N) (i, n) es))
    + (if es is [] then 0 else at_first i (count_dirichlet bl))
    + (if es is [] then 0
       else at_last (i + length es - 1) N (count_dirichlet br))
  = n + length (flat_map local_coeffs_of es).
Proof.
  intros Hes Hbl Hbr. revert i n.
  induction Hes as [|e es He _ IH]; intros i n HN; [cbn; lia|].
  cbn [walk_active flat_map length] in *.
  pose proof (assign_element_count bl br N neq i n e He Hbl Hbr) as H0.
  pose proof (assign_element_dofs bl br N i n e) as Hi.
  destruct (assign_element bl br N (i, n) e) as [[i0 n0] e0].
  specialize (Hi _ _ _ eq_refl) as (-> & _). cbn [fst snd] in H0.
  specialize (IH (S i) n0 ltac:(lia)).
  destruct (walk_active (assign_element bl br N) (S i, n0) es)
    as [[i1 n1] es1].
  cbn [fst snd] in *. rewrite length_app.
  destruct es as [|e1 es].
  - cbn [length flat_map] in *.
    replace (i + 1 - 1) with i by lia. lia.
  - cbn [length] in *.
    replace (i + S (S (length es)) - 1) with (S i + S (length es) - 1) by lia.
    assert (at_first (S i) (count_dirichlet bl) = 0) as Hf by reflexivity.
    assert (at_last i N (count_dirichlet br) = 0) as Hl.
    { unfold at_last. destruct (Nat.eqb_spec (S i) N); [lia|reflexivity]. }
    lia.
Qed.

(** The count [assign_dofs] returns: the local coefficients of the
    active elements, less one for each Dirichlet condition. *)
Lemma assign_dofs_count (s : Space) :
  Space_wf s ->
  n_dof (assign_dofs s) + n_dirichlet s = length (local_coeffs s).
Proof.
  intros (_ & Hne & Hes & Hbl & Hbr).
  pose proof (walk_assign_count (bc_left s) (bc_right s)
                (get_n_active_elem s) (n_eq s) (active_elements s) 0 0
                Hes Hbl Hbr ltac:(unfold get_n_active_elem; lia)) as Hcount.
  rewrite assign_dofs_walk in Hcount. cbn [fst snd] in Hcount.
  unfold n_dirichlet, local_coeffs.
  destruct (active_elements s) as [|e es] eqn:Hact; [congruence|].
  unfold at_first, at_last, get_n_active_elem in Hcount.
  rewrite Hact in Hcount. cbn [length Nat.eqb] in Hcount.
  replace (0 + S (length es) - 1) with (length es) in Hcount by lia.
  rewrite Nat.eqb_refl in Hcount. lia.
Qed.

(* ----------------------------------------------------------------- *)
(** ** construct_refined_space *)

Lemma active_below_refine_active (pol : RefPolicy) (neq : nat) (t : Element) :
  active_below (refine_active pol neq t) =
  flat_map (fun e => active_below (refine_element pol neq e))
    (active_below t).
Proof.
  induction t as [e|e son0 IH0 son1 IH1]; cbn.
  - now rewrite app_nil_r.
  - now rewrite IH0, IH1, flat_map_app.
Qed.

Lemma new_coeffs_wf (neq p : nat) (a b : float) :
  1 <= p -> elem_wf neq (mkElemData a b p (new_coeffs neq p)).
Proof.
  intros Hp. unfold elem_wf, new_coeffs. cbn [e_p e_coeffs].
  split; [exact Hp|]. split; [apply length_replicate|].
  apply Forall_replicate. apply length_replicate.
Qed.

Lemma refine_element_wf (pol : RefPolicy) (neq : nat) (e : ElemData) :
  elem_wf neq e ->
  Forall (elem_wf neq) (active_below (refine_element pol neq e)).
Proof.
  intros (Hp & _). unfold refine_element.
  destruct (ref_kind pol); cbn [active_below app];
    repeat constructor; apply new_coeffs_wf; lia.
Qed.

(** Refining an element adds local coefficients: twice as many after
    a split, [neq] times the increment after a rise of the degree. *)
Lemma refine_element_size (pol : RefPolicy) (neq : nat) (e : ElemData) :
  elem_wf neq e -> 1 <= neq ->
  (ref_kind pol = REF_P -> 0 < ref_incr pol) ->
  length (local_coeffs_of e) <
  length (flat_map local_coeffs_of (active_below (refine_element pol neq e))).
Proof.
  intros Hwf Hneq Hincr.
  pose proof (refine_element_wf pol neq e Hwf) as Hnew.
  rewrite (elem_wf_size _ _ Hwf).
  destruct Hwf as (Hp & _).
  unfold refine_element in *.
  destruct (ref_kind pol); cbn [active_below app flat_map] in *;
    repeat match goal with
    | H : Forall _ (_ :: _) |- _ => inversion H; subst; clear H
    end;
    rewrite ?length_app, ?app_nil_r;
    repeat match goal with
    | H : elem_wf _ _ |- _ => rewrite (elem_wf_size _ _ H); clear H
    end; cbn [e_p length]; try specialize (Hincr eq_refl); nia.
Qed.

Lemma refine_elements_size (pol : RefPolicy) (neq : nat)
    (es : list ElemData) :
  Forall (elem_wf neq) es -> 1 <= neq ->
  (ref_kind pol = REF_P -> 0 < ref_incr pol) ->
  length es + length (flat_map local_coeffs_of es) <=
  length (flat_map local_coeffs_of
            (flat_map (fun e => active_below (refine_element pol neq e)) es)).
Proof.
  intros Hes Hneq Hincr.
  induction Hes as [|e es He _ IH]; cbn [flat_map length]; [lia|].
  rewrite flat_map_app, !length_app.
  pose proof (refine_element_size pol neq e He Hneq Hincr). lia.
Qed.

Lemma active_elements_refined (pol : RefPolicy) (s : Space) :
  active_elements (refined_elements pol s) =
  flat_map (fun e => active_below (refine_element pol (n_eq s) e))
    (active_elements s).
Proof.
  unfold active_elements, refined_elements. cbn [elems].
  induction (elems s) as [|t ts IH]; cbn [map flat_map]; [reflexivity|].
  now rewrite flat_map_app, IH, active_below_refine_active.
Qed.

Lemma refined_elements_wf (pol : RefPolicy) (s : Space) :
  Space_wf s -> Space_wf (refined_elements pol s).
Proof.
  intros (Hneq & Hne & Hes & Hbl & Hbr).
  unfold Space_wf. rewrite active_elements_refined.
  cbn [n_eq bc_left bc_right refined_elements].
  split; [exact Hneq|]. split; [|split; [|auto]].
  - destruct (active_elements s) as [|e es]; [congruence|].
    cbn [flat_map]. unfold refine_element.
    destruct (ref_kind pol); discriminate.
  - apply Forall_flat_map. eapply Forall_impl; [exact Hes|].
    intros e He. now apply refine_element_wf.
Qed.

(** The reference space has more degrees of freedom than an
    enumerated coarse space. *)
Lemma refined_space_more_dofs (pol : RefPolicy) (s : Space) :
  Space_wf s ->
  assign_dofs s = s ->
  (ref_kind pol = REF_P -> 0 < ref_incr pol) ->
  get_num_dofs s < get_num_dofs (refined_space pol s).
Proof.
  intros Hwf Hs Hincr. unfold get_num_dofs.
  pose proof (assign_dofs_count s Hwf) as Hc. rewrite Hs in Hc.
  pose proof (assign_dofs_count _ (refined_elements_wf pol s Hwf)) as Hr.
  unfold refined_space.
  unfold local_coeffs in Hc, Hr. rewrite active_elements_refined in Hr.
  destruct Hwf as (Hneq & Hne & Hes & _).
  pose proof (refine_elements_size pol (n_eq s) (active_elements s)
                Hes Hneq Hincr) as Hsize.
  assert (0 < length (active_elements s))
    by (destruct (active_elements s); [congruence|cbn; lia]).
  unfold n_dirichlet in *. cbn [refined_elements bc_left bc_right] in Hr.
  lia.
Qed.

(** C5. [construct_refined_space] allocates a new space with strictly
    more degrees of freedom than the coarse one, and the coarse space,
    like every other space of the heap, is as before.  The coarse
    space is one that satisfies the invariants of the data model
    ([Space_wf]) and whose degrees of freedom are enumerated; a policy
    that only raises the degree raises it by at least one. *)
Theorem construct_refined_space_more_dofs
    (pol : RefPolicy) (heap : gmap positive Space) (coarse : positive)
    (s : Space) :
  heap !! coarse = Some s ->
  Space_wf s ->
  assign_dofs s = s ->
  (ref_kind pol = REF_P -> 0 < ref_incr pol) ->
  exists (ref : positive) (heap' : gmap positive Space) (r : Space),
    construct_refined_space pol heap coarse = Some (ref, heap') /\
    heap !! ref = None /\
    heap' !! ref = Some r /\
    get_num_dofs s < get_num_dofs r /\
    heap' !! coarse = Some s /\
    forall a : positive, a <> ref -> heap' !! a = heap !! a.
Proof.
  intros Hs Hwf Hdofs Hincr. unfold construct_refined_space. rewrite Hs.
  pose proof (is_fresh (dom heap)) as Hfresh.
  apply not_elem_of_dom in Hfresh.
  exists (fresh (dom heap)), (<[fresh (dom heap) := refined_space pol s]> heap),
    (refined_space pol s).
  split; [reflexivity|]. split; [exact Hfresh|].
  split; [apply lookup_insert_eq|].
  split; [now apply refined_space_more_dofs|].
  split.
  - rewrite lookup_insert_ne; [exact Hs|]. intros E. rewrite E in Hfresh.
    congruence.
  - intros a Ha. apply lookup_insert_ne. congruence.
Qed.

Lemma main_space_wf : Space_wf (assign_dofs main_space).
Proof.
  unfold Space_wf. vm_compute.
  split; [lia|]. split; [discriminate|].
  split; [|split; reflexivity].
  repeat constructor.
Qed.

(** The reference space of the coarse space of [main.cpp], split and
    raised by one degree: 10 degrees of freedom instead of 2. *)
Lemma construct_refined_space_main :
  exists (ref : positive) (heap' : gmap positive Space) (r : Space),
    construct_refined_space (mkRefPolicy REF_HP 1)
      {[ 1%positive := assign_dofs main_space ]} 1%positive
      = Some (ref, heap') /\
    ({[ 1%positive := assign_dofs main_space ]} : gmap positive Space)
      !! ref = None /\
    heap' !! ref = Some r /\
    get_num_dofs (assign_dofs main_space) < get_num_dofs r /\
    heap' !! 1%positive = Some (assign_dofs main_space) /\
    forall a : positive,
      a <> ref ->
      heap' !! a =
      ({[ 1%positive := assign_dofs main_space ]} : gmap positive Space) !! a.
Proof.
  apply (construct_refined_space_more_dofs (mkRefPolicy REF_HP 1)
           {[ 1%positive := assign_dofs main_space ]} 1%positive
           (assign_dofs main_space)).
  - apply lookup_singleton_eq.
  - exact main_space_wf.
  - apply assign_dofs_idempotent.
  - cbn. lia.
Defined.

Example refined_space_main_dofs :
  get_num_dofs (assign_dofs main_space) = 2 /\
  get_num_dofs (refined_space (mkRefPolicy REF_HP 1) (assign_dofs main_space))
    = 10.
Proof. split; vm_compute; reflexivity. Qed.

(** C7. On a space whose degrees of freedom are enumerated,
    [vector_to_solution] followed by [solution_to_vector] gives back
    the coefficient vector, entry for entry: each entry is a [double]
    copied twice, whatever the array [solution_to_vector] is given to
    fill held before. *)
Theorem vector_to_solution_round_trip (s : Space) (y arr : list float) :
  assign_dofs s = s ->
  length y = get_num_dofs s ->
  length arr = get_num_dofs s ->
  solution_to_vector (vector_to_solution y s) arr = y.
Proof.
  intros Hs Hy Harr. unfold get_num_dofs in *.
  pose proof (assign_dofs_enumerates s) as Henum. rewrite Hs in Henum.
  unfold solution_to_vector. rewrite local_coeffs_vector_to_solution.
  apply list_eq. intros k.
  rewrite (store_load_range y _ 0 (n_dof s)) by congruence.
  case_decide as Hk; [reflexivity|].
  rewrite !(proj2 (lookup_ge_None _ _)); [reflexivity|lia|lia].
Qed.

Lemma vector_to_solution_round_trip_main :
  solution_to_vector
    (vector_to_solution [1.5%float; 2.5%float] (assign_dofs main_space))
    [0%float; 0%float]
  = [1.5%float; 2.5%float].
Proof.
  apply (vector_to_solution_round_trip (assign_dofs main_space)
           [1.5%float; 2.5%float] [0%float; 0%float]).
  - apply assign_dofs_idempotent.
  - reflexivity.
  - reflexivity.
Defined.

(** The enumeration of the coarse space of [main.cpp]: four local
    coefficients, two of them fixed by the Dirichlet conditions. *)
Example assign_dofs_main :
  get_num_dofs (assign_dofs main_space) = 2 /\
  length (local_coeffs main_space) = 4 /\
  n_dirichlet main_space = 2 /\
  omap lc_dof (local_coeffs (assign_dofs main_space)) = [0; 1].
Proof. repeat split; vm_compute; reflexivity. Qed.

(* ----------------------------------------------------------------- *)
(** ** Facts of binary64 arithmetic *)

(** The product of two [double]s does not depend on their order. *)
Lemma float_mul_comm (x y : float) : (x * y = y * x)%float.
Proof.
  apply Prim2SF_inj. rewrite !FloatAxioms.mul_spec.
  unfold SF64mul, SFmul.
  destruct (Prim2SF x) as [sx|sx| |sx mx ex], (Prim2SF y) as [sy|sy| |sy my ey];
    try reflexivity; try (now rewrite xorb_comm).
  now rewrite xorb_comm, Pos.mul_comm, Z.add_comm.
Qed.


(** A [double] that is not below [1e-3] and is no NaN is above
    [1e-10]. *)
Lemma float_above_tol (e : float) :
  (e <? TOL_ERR_REL)%float = false -> (e =? e)%float = true ->
  (0x1.b7cdfd9d7bdbbp-34 <? e)%float = true.
Proof.
  rewrite !FloatAxioms.ltb_spec, FloatAxioms.eqb_spec.
  change (Prim2SF TOL_ERR_REL) with (S754_finite false 4611686018427388 (-62)).
  change (Prim2SF 0x1.b7cdfd9d7bdbbp-34)
    with (S754_finite false 7737125245533627 (-86)).
  unfold SFltb, SFeqb, SFcompare.
  destruct (Prim2SF e) as [s|[|]| |[|] m ex]; try discriminate; try reflexivity.
  destruct (Z.compare_spec ex (-62)) as [->|Hlt|Hgt]; intros H1 _.
  - reflexivity.
  - discriminate H1.
  - destruct (Z.compare_spec (-86) ex); try lia; reflexivity.
Qed.

(** Multiplication by [-1.] is the change of sign: the mantissa
    [m * 2^52] at the exponent [e - 52] is shifted back by 52 binary
    digits without a remainder. *)
Lemma digits2_pos_shift (k : nat) (m : positive) :
  Z.pos (digits2_pos (Nat.iter k xO m))
  = (Z.pos (digits2_pos m) + Z.of_nat k)%Z.
Proof.
  induction k as [|k IH]; [cbn; lia|].
  change (Z.pos (digits2_pos (Nat.iter (S k) xO m)))
    with (Z.pos (Pos.succ (digits2_pos (Nat.iter k xO m)))).
  rewrite Pos2Z.inj_succ, IH. lia.
Qed.

Lemma shr_1_shift (k : nat) (m : positive) :
  Nat.iter k shr_1 (Build_shr_record (Z.pos (Nat.iter k xO m)) false false)
  = Build_shr_record (Z.pos m) false false.
Proof.
  induction k as [|k IH]; [reflexivity|].
  rewrite Nat.iter_succ_r. cbn [Nat.iter shr_1 orb]. exact IH.
Qed.

Lemma SFmul_minus_one (x : spec_float) :
  valid_binary x = true ->
  SF64mul x (S754_finite true 4503599627370496 (-52)) = SFopp x.
Proof.
  destruct x as [s|s| |s m e]; intros Hv; cbn [SF64mul SFmul SFopp];
    rewrite ?xorb_true_r; try reflexivity.
  cbn [SpecFloat.valid_binary] in Hv. unfold bounded, canonical_mantissa in Hv.
  apply andb_prop in Hv as [Hc He]. apply Z.eqb_eq in Hc.
  rewrite Pos.mul_comm.
  change (4503599627370496 * m)%positive with (Nat.iter 52 xO m).
  unfold binary_round_aux, shr_fexp.
  cbn [Zdigits2]. rewrite digits2_pos_shift.
  replace (Z.pos (digits2_pos m) + Z.of_nat 52 + (e + -52))%Z
    with (Z.pos (digits2_pos m) + e)%Z by lia.
  rewrite Hc.
  replace (e - (e + -52))%Z with 52%Z by lia.
  cbn [shr shr_record_of_loc].
  change (SpecFloat.iter_pos shr_1 52) with (Nat.iter 52 shr_1).
  rewrite shr_1_shift.
  cbn [shr_m loc_of_shr_record shr_r shr_s round_nearest_even Zdigits2].
  replace (e + -52 + 52)%Z with e by lia.
  rewrite Hc, Z.sub_diag. cbn [shr shr_m]. now rewrite He.
Qed.

Lemma float_mul_minus_one (x : float) : (x * -1 = - x)%float.
Proof.
  apply Prim2SF_inj. rewrite FloatAxioms.mul_spec, FloatAxioms.opp_spec.
  change (Prim2SF (-1)) with (S754_finite true 4503599627370496 (-52)).
  apply SFmul_minus_one, FloatAxioms.Prim2SF_valid.
Qed.

Lemma float_opp_involutive (x : float) : (- - x = x)%float.
Proof.
  apply Prim2SF_inj. rewrite !FloatAxioms.opp_spec.
  destruct (Prim2SF x); cbn; now rewrite ?negb_involutive.
Qed.

(* ----------------------------------------------------------------- *)
(** ** The count of PETSc objects *)










(* ----------------------------------------------------------------- *)
(** ** PetscMatrix: zero, add, get *)


(* ----------------------------------------------------------------- *)
(** ** PetscVector *)

(** Inside the vector [VecSetValue] is an update of the list. *)
Lemma VecSetValue_in_range (x : Vec) (i : nat) (v : float) (mode : InsertMode) :
  (i < length x)%nat -> (Z.of_nat (length x) < 2 ^ 31)%Z ->
  VecSetValue x (to_PetscInt (Z.of_nat i)) v mode =
  <[i := match mode with
         | INSERT_VALUES => v
         | ADD_VALUES => (nth i x 0 + v)%float
         end]> x.
Proof.
  intros Hi Hx. unfold VecSetValue, to_PetscInt.
  destruct (Z.ltb_spec (Z.of_nat i) (2 ^ 31)); [|lia].
  destruct (Z.leb_spec 0 (Z.of_nat i)); [|lia].
  destruct (Z.ltb_spec (Z.of_nat i) (Z.of_nat (length x))); [|lia].
  cbn [andb]. now rewrite Nat2Z.id.
Qed.

(** A loop that updates the entries [k], [k+1], ... of a list one by
    one, each from its own old value and the index, has updated
    each. *)
Lemma fold_insert_seq {X : Type} (d : X) (g : nat -> X -> X)
    (pre rest : list X) :
  fold_left (fun acc i => <[i := g i (nth i acc d)]> acc)
    (seq (length pre) (length rest)) (pre ++ rest)
  = pre ++ imap (fun j a => g (length pre + j)%nat a) rest.
Proof.
  revert pre. induction rest as [|a rest IH]; intros pre; [reflexivity|].
  cbn [length seq fold_left imap].
  rewrite app_nth2, Nat.sub_diag by lia. cbn [nth].
  replace (<[length pre := g (length pre) a]> (pre ++ a :: rest))
    with ((pre ++ [g (length pre) a]) ++ rest).
  2:{ rewrite insert_app_r_alt, Nat.sub_diag by lia. cbn.
      now rewrite <- app_assoc. }
  replace (S (length pre)) with (length (pre ++ [g (length pre) a]))
    by (rewrite length_app; cbn; lia).
  rewrite IH, <- app_assoc. cbn [app]. rewrite Nat.add_0_r.
  do 2 f_equal. apply imap_ext. intros j b _. cbn.
  f_equal. rewrite length_app. cbn. lia.
Qed.

Lemma fold_insert_all {X : Type} (d : X) (g : nat -> X -> X) (l : list X) :
  fold_left (fun acc i => <[i := g i (nth i acc d)]> acc)
    (seq 0 (length l)) l
  = imap g l.
Proof. exact (fold_insert_seq d g [] l). Qed.

(** The loop of [add_vector] with every index inside the vector. *)
Lemma PetscVector_add_loop (v : PetscVector) (get : nat -> float) :
  (Z.of_nat (length (vec v)) < 2 ^ 31)%Z ->
  fold_left (fun acc i => PetscVector_add acc (Z.of_nat i) (get i))
    (seq 0 (length (vec v))) v
  = mkPetscVector (imap (fun i a => (a + get i)%float) (vec v)) (vec_inited v).
Proof.
  intros Hsize.
  rewrite <- (fold_insert_all 0%float (fun i a => (a + get i)%float) (vec v)).
  assert (Hgen : forall (ks : list nat) (x : Vec) (b : bool),
    length x = length (vec v) ->
    Forall (fun i => (i < length (vec v))%nat) ks ->
    fold_left (fun acc i => PetscVector_add acc (Z.of_nat i) (get i)) ks
      (mkPetscVector x b)
    = mkPetscVector
        (fold_left (fun acc i => <[i := (nth i acc 0 + get i)%float]> acc) ks x)
        b).
  { induction ks as [|i ks IH]; intros x b Hx Hall; [reflexivity|].
    inversion Hall as [|? ? Hi Hall']; subst.
    cbn [fold_left]. unfold PetscVector_add at 2. cbn [vec vec_inited].
    rewrite VecSetValue_in_range by lia.
    apply IH; [now rewrite length_insert|assumption]. }
  destruct v as [x b]. cbn [vec vec_inited] in *.
  apply Hgen; [reflexivity|].
  apply Forall_forall. intros i Hi. apply elem_of_seq in Hi. lia.
Qed.

Lemma imap_zip_with_add (x w : list float) :
  length x = length w ->
  imap (fun i a => (a + Vector_get w i)%float) x = zip_with PrimFloat.add x w.
Proof.
  revert w. induction x as [|a x IH]; intros [|b w] Hlen;
    try discriminate; [reflexivity|].
  cbn [imap zip_with]. f_equal.
  rewrite <- IH by (cbn in Hlen; lia). apply imap_ext. now intros.
Qed.

(** X4. [add_vector(Vector* vec)] on a vector of fewer than [2^31]
    entries: when the other vector has the same size the result holds
    the sums [this[i] + vec[i]], entry by entry, and [inited] is as
    before; when the sizes differ the [assert] fails. *)
Theorem PetscVector_add_vector_sums (v : PetscVector) (w : Vector) :
  (PetscVector_get_size v < 2 ^ 31)%Z ->
  PetscVector_add_vector v w =
    if decide (length (vec v) = length w) then
      Returns (mkPetscVector (zip_with PrimFloat.add (vec v) w) (vec_inited v))
    else AssertFails.
Proof.
  unfold PetscVector_add_vector, PetscVector_get_size. intros Hsize.
  destruct (Z.eqb_spec (Z.of_nat (length (vec v))) (Z.of_nat (length w)))
    as [Heq|Hne]; case_decide; try lia; [|reflexivity].
  rewrite Nat2Z.id, PetscVector_add_loop by exact Hsize.
  now rewrite imap_zip_with_add.
Qed.

Lemma PetscVector_add_vector_sums_run :
  (PetscVector_get_size (mkPetscVector [1; 2; 3]%float true) < 2 ^ 31)%Z /\
  PetscVector_add_vector (mkPetscVector [1; 2; 3]%float true) [10; 20; 30]%float
  = Returns (mkPetscVector [11; 22; 33]%float true).
Proof.
  split; [reflexivity|].
  apply (PetscVector_add_vector_sums (mkPetscVector [1; 2; 3]%float true)
           [10; 20; 30]%float).
  reflexivity.
Defined.

Lemma imap_zip_with_add_array (x arr : list float) :
  (length x <= length arr)%nat ->
  imap (fun i a => (a + nth i arr 0)%float) x = zip_with PrimFloat.add x arr.
Proof.
  revert arr. induction x as [|a x IH]; intros [|b arr] Hlen;
    cbn in Hlen; try lia; try reflexivity.
  cbn [imap zip_with]. f_equal.
  rewrite <- IH by lia. apply imap_ext. now intros.
Qed.

(** X5. [add_vector(Scalar* vec)] adds the first [size] entries of
    the array to the vector, entry by entry, and leaves [inited] as it
    is; there is no test of the length, what the array holds beyond
    the size of the vector is not read. *)
Theorem PetscVector_add_vector_array_sums (v : PetscVector)
    (arr : list float) :
  (PetscVector_get_size v < 2 ^ 31)%Z ->
  (length (vec v) <= length arr)%nat ->
  PetscVector_add_vector_array v arr =
    mkPetscVector (zip_with PrimFloat.add (vec v) arr) (vec_inited v).
Proof.
  unfold PetscVector_add_vector_array, PetscVector_get_size.
  intros Hsize Hlen.
  rewrite Nat2Z.id, PetscVector_add_loop by exact Hsize.
  now rewrite imap_zip_with_add_array.
Qed.

Lemma PetscVector_add_vector_array_sums_run :
  PetscVector_add_vector_array (mkPetscVector [1; 2]%float true)
    [10; 20; 30]%float
  = mkPetscVector [11; 22]%float true.
Proof.
  apply (PetscVector_add_vector_array_sums (mkPetscVector [1; 2]%float true)
           [10; 20; 30]%float).
  - reflexivity.
  - cbn. lia.
Defined.

(** [VecGetValues] and [VecSetValues] on all rows of the vector. *)
Lemma nth_all_rows (n i : nat) :
  (i < n)%nat -> (Z.of_nat n < 2 ^ 31)%Z ->
  nth i (map (fun i => to_PetscInt (Z.of_nat i)) (seq 0 n)) 0%Z
  = to_PetscInt (Z.of_nat i).
Proof.
  intros Hi Hn.
  rewrite (nth_indep _ 0%Z (to_PetscInt (Z.of_nat 0)))
    by (rewrite length_map, length_seq; lia).
  rewrite (map_nth (fun i => to_PetscInt (Z.of_nat i))), seq_nth by lia.
  reflexivity.
Qed.

Lemma VecGetValues_all (x : Vec) :
  (Z.of_nat (length x) < 2 ^ 31)%Z ->
  VecGetValues x (Z.of_nat (length x))
    (map (fun i => to_PetscInt (Z.of_nat i)) (seq 0 (length x)))
  = x.
Proof.
  intros Hx. unfold VecGetValues. rewrite Nat2Z.id.
  apply nth_ext with (d := 0%float) (d' := 0%float).
  - now rewrite length_map, length_seq.
  - intros i Hi. rewrite length_map, length_seq in Hi.
    set (g := fun k : nat => _).
    rewrite (nth_indep _ 0%float (g 0%nat))
      by (rewrite length_map, length_seq; lia).
    rewrite (map_nth g), seq_nth by lia. subst g. cbn beta zeta.
    cbn [Nat.add]. rewrite nth_all_rows by lia.
    unfold to_PetscInt. destruct (Z.ltb_spec (Z.of_nat i) (2 ^ 31)); [|lia].
    destruct (Z.leb_spec 0 (Z.of_nat i)); [|lia].
    destruct (Z.ltb_spec (Z.of_nat i) (Z.of_nat (length x))); [|lia].
    cbn [andb]. now rewrite Nat2Z.id.
Qed.

Lemma VecSetValues_all (x y : Vec) :
  (Z.of_nat (length x) < 2 ^ 31)%Z -> length y = length x ->
  VecSetValues x (Z.of_nat (length x))
    (map (fun i => to_PetscInt (Z.of_nat i)) (seq 0 (length x))) y
    INSERT_VALUES
  = y.
Proof.
  intros Hx Hy. unfold VecSetValues. rewrite Nat2Z.id.
  transitivity
    (fold_left (fun acc i => <[i := nth i y 0%float]> acc)
       (seq 0 (length x)) x).
  - assert (Hgen : forall (ks : list nat) (acc : Vec),
      length acc = length x ->
      Forall (fun i => (i < length x)%nat) ks ->
      fold_left
        (fun acc k =>
           VecSetValue acc
             (nth k (map (fun i => to_PetscInt (Z.of_nat i))
                       (seq 0 (length x))) 0%Z)
             (nth k y 0%float) INSERT_VALUES) ks acc
      = fold_left (fun acc i => <[i := nth i y 0%float]> acc) ks acc).
    { induction ks as [|i ks IH]; intros acc Hacc Hall; [reflexivity|].
      inversion Hall as [|? ? Hi Hall']; subst. cbn [fold_left].
      rewrite nth_all_rows by lia.
      rewrite VecSetValue_in_range by lia.
      apply IH; [rewrite <- Hacc; apply length_insert|assumption]. }
    apply Hgen; [reflexivity|].
    apply Forall_forall. intros i Hi. apply elem_of_seq in Hi. lia.
  - pose proof (fold_insert_all 0%float (fun i _ => nth i y 0%float) x)
      as Hfold.
    transitivity (imap (fun i (_ : float) => nth i y 0%float) x);
      [exact Hfold|clear Hfold].
    apply list_eq. intros i. rewrite list_lookup_imap.
    destruct (Nat.lt_ge_cases i (length x)) as [Hi|Hi].
    + destruct (lookup_lt_is_Some_2 x i Hi) as [a Ha].
      destruct (lookup_lt_is_Some_2 y i ltac:(lia)) as [b Hb].
      rewrite Ha, Hb. simpl. f_equal. now apply nth_lookup_Some.
    + rewrite (lookup_ge_None_2 x i Hi).
      now rewrite (lookup_ge_None_2 y i ltac:(lia)).
Qed.

Lemma imap_map {X Y : Type} (g : X -> Y) (l : list X) :
  imap (fun _ a => g a) l = map g l.
Proof.
  induction l as [|a l IH]; [reflexivity|].
  cbn [imap map]. f_equal. rewrite <- IH. now apply imap_ext.
Qed.

(** X6. [change_sign()] replaces every entry by its IEEE negation
    (the multiplication by [-1.] rounds nothing: also zeros, infinities
    and NaN come out as the negation gives them), keeps the size and
    [inited], and is an involution: two calls give back the vector bit
    for bit. *)
Theorem PetscVector_change_sign_negates (v : PetscVector) :
  (PetscVector_get_size v < 2 ^ 31)%Z ->
  vec (PetscVector_change_sign v) = map PrimFloat.opp (vec v) /\
  vec_inited (PetscVector_change_sign v) = vec_inited v /\
  PetscVector_change_sign (PetscVector_change_sign v) = v.
Proof.
  assert (Hvec : forall u : PetscVector,
    (PetscVector_get_size u < 2 ^ 31)%Z ->
    PetscVector_change_sign u
    = mkPetscVector (map PrimFloat.opp (vec u)) (vec_inited u)).
  { intros [x b]. unfold PetscVector_change_sign, PetscVector_get_size.
    cbn [vec vec_inited]. intros Hx. f_equal.
    rewrite Nat2Z.id. rewrite VecGetValues_all by exact Hx.
    rewrite (fold_insert_all 0%float (fun _ a => (a * -1)%float) x).
    rewrite VecSetValues_all by (rewrite ?length_imap; auto).
    rewrite (imap_map (fun a => (a * -1)%float)).
    apply map_ext. intros a. apply float_mul_minus_one. }
  intros Hsize. rewrite (Hvec v Hsize). cbn [vec vec_inited].
  split; [reflexivity|]. split; [reflexivity|].
  rewrite Hvec
    by (unfold PetscVector_get_size in *; cbn [vec];
        now rewrite length_map).
  cbn [vec vec_inited]. destruct v as [x b]. cbn [vec vec_inited]. f_equal.
  rewrite map_map. rewrite <- (map_id x) at 2.
  apply map_ext. intros a. apply float_opp_involutive.
Qed.

Lemma PetscVector_change_sign_negates_run :
  vec (PetscVector_change_sign (mkPetscVector [1; -2; 0]%float true))
  = [-1; 2; -0]%float.
Proof.
  apply (PetscVector_change_sign_negates (mkPetscVector [1; -2; 0]%float true)).
  reflexivity.
Defined.

(** [vec_get_value] with the size of the vector reads all of it. *)
Lemma vec_get_value_all (x : Vec) :
  vec_get_value x (Z.of_nat (length x)) = x.
Proof.
  unfold vec_get_value. rewrite Nat2Z.id.
  apply nth_ext with (d := 0%float) (d' := 0%float).
  - now rewrite length_map, length_seq.
  - intros i Hi. rewrite length_map, length_seq in Hi.
    rewrite (nth_indep _ 0%float (nth 0%nat x 0%float))
      by (rewrite length_map, length_seq; lia).
    rewrite (map_nth (fun i => nth i x 0%float)), seq_nth by lia.
    reflexivity.
Qed.

Lemma PetscVector_get_in_range (v : PetscVector) (i : nat) :
  (i < length (vec v))%nat -> (Z.of_nat (length (vec v)) < 2 ^ 31)%Z ->
  PetscVector_get v (Z.of_nat i) = nth i (vec v) 0%float.
Proof.
  intros Hi Hx. unfold PetscVector_get, VecGetValues, to_PetscInt.
  change (Z.to_nat 1) with 1%nat. cbn [seq map nth]. cbn zeta.
  destruct (Z.ltb_spec (Z.of_nat i) (2 ^ 31)); [|lia].
  destruct (Z.leb_spec 0 (Z.of_nat i)); [|lia].
  destruct (Z.ltb_spec (Z.of_nat i) (Z.of_nat (length (vec v)))); [|lia].
  cbn [andb]. now rewrite Nat2Z.id.
Qed.

(** X17. On a vector of fewer than [2^31] entries and for an index
    inside of it: [get(idx)] after [set(idx, y)] reads [y], [extract]
    after [set(idx, y)] gives the entries of the vector with the one at
    [idx] replaced by [y], [get(idx)] after [add(idx, y)] reads the old
    entry plus [y] (no value is skipped, unlike in [PetscMatrix::add]),
    and neither [set] nor [add] changes what [get] reads at another
    index. *)
Theorem PetscVector_set_get (v : PetscVector) (i : nat) (y : float) :
  (i < length (vec v))%nat -> (PetscVector_get_size v < 2 ^ 31)%Z ->
  PetscVector_get (PetscVector_set v (Z.of_nat i) y) (Z.of_nat i) = y /\
  PetscVector_extract (PetscVector_set v (Z.of_nat i) y) = <[i := y]> (vec v) /\
  PetscVector_get (PetscVector_add v (Z.of_nat i) y) (Z.of_nat i)
  = (PetscVector_get v (Z.of_nat i) + y)%float /\
  forall j : nat,
    (j < length (vec v))%nat -> j <> i ->
    PetscVector_get (PetscVector_set v (Z.of_nat i) y) (Z.of_nat j)
    = PetscVector_get v (Z.of_nat j) /\
    PetscVector_get (PetscVector_add v (Z.of_nat i) y) (Z.of_nat j)
    = PetscVector_get v (Z.of_nat j).
Proof.
  unfold PetscVector_get_size. intros Hi Hx.
  assert (Hset : vec (PetscVector_set v (Z.of_nat i) y) = <[i := y]> (vec v)).
  { unfold PetscVector_set. cbn [vec].
    now rewrite VecSetValue_in_range by assumption. }
  assert (Hadd : vec (PetscVector_add v (Z.of_nat i) y)
                 = <[i := (nth i (vec v) 0 + y)%float]> (vec v)).
  { unfold PetscVector_add. cbn [vec].
    now rewrite VecSetValue_in_range by assumption. }
  assert (Hnth : forall (a : float) (j : nat), (j < length (vec v))%nat ->
            nth j (<[i := a]> (vec v)) 0%float
            = if decide (j = i) then a else nth j (vec v) 0%float).
  { intros a j Hj. apply nth_lookup_Some.
    case_decide as Hji.
    - subst j. now apply list_lookup_insert_eq.
    - etransitivity; [apply list_lookup_insert_ne; auto|].
      destruct (lookup_lt_is_Some_2 (vec v) j Hj) as [b Hb].
      rewrite Hb. f_equal. symmetry. now apply nth_lookup_Some. }
  assert (Hlen : forall a : float,
            length (<[i := a]> (vec v)) = length (vec v))
    by (intros a; apply length_insert).
  split; [|split; [|split]].
  - rewrite PetscVector_get_in_range
      by (rewrite Hset, Hlen; assumption).
    rewrite Hset, Hnth by assumption. now rewrite decide_True.
  - unfold PetscVector_extract, PetscVector_get_size.
    rewrite vec_get_value_all. exact Hset.
  - rewrite !PetscVector_get_in_range
      by (rewrite ?Hadd, ?Hlen; assumption).
    rewrite Hadd, Hnth by assumption. now rewrite decide_True.
  - intros j Hj Hji.
    rewrite !PetscVector_get_in_range
      by (rewrite ?Hadd, ?Hset, ?Hlen; assumption).
    rewrite Hset, Hadd, !Hnth by assumption.
    now rewrite !decide_False by assumption.
Qed.

Lemma PetscVector_set_get_run :
  PetscVector_get
    (PetscVector_set (mkPetscVector [1; 2; 3]%float true) 1 7%float) 1
  = 7%float.
Proof.
  apply (PetscVector_set_get (mkPetscVector [1; 2; 3]%float true) 1 7%float).
  - cbn. lia.
  - reflexivity.
Defined.

Lemma VecSetValue_add_nth (x : Vec) (row : Z) (a : float) (j : nat) :
  (0 <= row < Z.of_nat (length x))%Z -> (Z.of_nat (length x) < 2 ^ 31)%Z ->
  (j < length x)%nat ->
  length (VecSetValue x (to_PetscInt row) a ADD_VALUES) = length x /\
  nth j (VecSetValue x (to_PetscInt row) a ADD_VALUES) 0%float
  = if (row =? Z.of_nat j)%Z then (nth j x 0 + a)%float else nth j x 0%float.
Proof.
  intros Hrow Hx Hj.
  replace row with (Z.of_nat (Z.to_nat row)) by lia.
  rewrite VecSetValue_in_range by lia.
  split; [apply length_insert|].
  destruct (Z.eqb_spec (Z.of_nat (Z.to_nat row)) (Z.of_nat j)) as [He|Hne].
  - apply Nat2Z.inj in He. rewrite He.
    apply nth_lookup_Some. now apply list_lookup_insert_eq.
  - apply nth_lookup_Some.
    etransitivity; [apply list_lookup_insert_ne; lia|].
    destruct (lookup_lt_is_Some_2 x j Hj) as [b Hb].
    rewrite Hb. f_equal. symmetry. now apply nth_lookup_Some.
Qed.

(** X18. [add(n, idx, y)] with all [n] rows inside a vector of fewer
    than [2^31] entries keeps the size and [inited], and leaves in
    every entry [j] the old value with the values [y[k]] of the rows
    [idx[k] == j] added to it one after the other, in the order of the
    arrays: values for the same row accumulate, an entry that is not
    listed is unchanged. *)
Theorem PetscVector_add_n_accumulates (v : PetscVector) (n : Z)
    (idx : list Z) (y : list float) :
  (PetscVector_get_size v < 2 ^ 31)%Z ->
  (forall k, (k < Z.to_nat n)%nat ->
     (0 <= nth k idx 0 < PetscVector_get_size v)%Z) ->
  PetscVector_get_size (PetscVector_add_n v n idx y) = PetscVector_get_size v /\
  vec_inited (PetscVector_add_n v n idx y) = vec_inited v /\
  forall j : nat,
    (j < length (vec v))%nat ->
    nth j (vec (PetscVector_add_n v n idx y)) 0%float
    = add_n_entry (Z.of_nat j) idx y (seq 0 (Z.to_nat n)) (nth j (vec v) 0%float).
Proof.
  unfold PetscVector_get_size, PetscVector_add_n, add_n_entry.
  intros Hsize Hidx.
  assert (Hks : Forall (fun k => (k < Z.to_nat n)%nat) (seq 0 (Z.to_nat n))).
  { apply Forall_forall. intros k Hk. apply elem_of_seq in Hk. lia. }
  revert Hks. generalize (seq 0 (Z.to_nat n)) as ks. intros ks.
  set (step := fun (acc : PetscVector) (i : nat) => _).
  assert (Hgen : forall acc : PetscVector,
    Forall (fun k => (k < Z.to_nat n)%nat) ks ->
    length (vec acc) = length (vec v) ->
    Z.of_nat (length (vec (fold_left step ks acc)))
      = Z.of_nat (length (vec v)) /\
    vec_inited (fold_left step ks acc) = vec_inited acc /\
    forall j : nat,
      (j < length (vec v))%nat ->
      nth j (vec (fold_left step ks acc)) 0%float
      = fold_left
          (fun a k =>
             if (nth k idx 0 =? Z.of_nat j)%Z then (a + nth k y 0)%float
             else a)
          ks (nth j (vec acc) 0%float)).
  { induction ks as [|k ks IH]; intros acc Hall Hlen.
    - cbn [fold_left]. rewrite Hlen. auto.
    - inversion Hall as [|? ? Hk Hall']; subst. cbn [fold_left].
      pose proof (Hidx k Hk) as Hrow.
      assert (Hlen' : length (vec (step acc k)) = length (vec v)).
      { subst step. cbn [vec]. rewrite <- Hlen.
        apply (VecSetValue_add_nth (vec acc) _ _ 0); lia. }
      destruct (IH (step acc k) Hall' Hlen') as (H1 & H2 & H3).
      split; [exact H1|]. split; [rewrite H2; reflexivity|].
      intros j Hj. rewrite (H3 j Hj). f_equal.
      subst step. cbn [vec].
      apply (VecSetValue_add_nth (vec acc)); lia. }
  intros Hks. apply Hgen; [exact Hks|reflexivity].
Qed.

Lemma PetscVector_add_n_accumulates_run :
  nth 0 (vec (PetscVector_add_n (mkPetscVector [1; 2]%float true) 3
                [0; 1; 0]%Z [10; 20; 30]%float)) 0%float
  = ((1 + 10) + 30)%float.
Proof.
  apply (PetscVector_add_n_accumulates (mkPetscVector [1; 2]%float true) 3
           [0; 1; 0]%Z [10; 20; 30]%float).
  - reflexivity.
  - intros k Hk. change (Z.to_nat 3) with 3%nat in Hk.
    unfold PetscVector_get_size. cbn [vec length].
    assert (Hk3 : (k = 0 \/ k = 1 \/ k = 2)%nat) by lia.
    destruct Hk3 as [-> | [-> | ->] ]; cbn [nth]; lia.
  - cbn. lia.
Defined.

(* ----------------------------------------------------------------- *)
(** ** The weak forms of main.cpp *)

Lemma fold_left_pointwise {X Y : Type} (g h : X -> Y -> X) (l : list Y)
    (a : X) :
  (forall b i, g b i = h b i) -> fold_left g l a = fold_left h l a.
Proof.
  intros Hgh. revert a. induction l as [|i l IH]; intros a; [reflexivity|].
  cbn [fold_left]. now rewrite Hgh, IH.
Qed.

(** X7. The Jacobian form is symmetric: exchanging the basis function
    [(u, dudx)] and the test function [(v, dvdx)] gives the same
    [double], bit for bit, for every number of quadrature points and
    all arrays. *)
Theorem jacobian_symmetric (num : Z) (x weights u dudx v dvdx : list float)
    (u_prev du_prevdx : list (list (list float))) :
  jacobian num x weights u dudx v dvdx u_prev du_prevdx
  = jacobian num x weights v dvdx u dudx u_prev du_prevdx.
Proof.
  unfold jacobian. apply fold_left_pointwise. intros val i.
  now rewrite (float_mul_comm (nth i dudx 0%float) (nth i dvdx 0%float)).
Qed.

(** X8. The exact solution of the test solves the problem of the
    test: over the real numbers [dudx] is the derivative of [u] and
    [-u'' = f] at every point, and in [double] arithmetic [u] takes the
    Dirichlet values [Val_dir_left] at [A] and [Val_dir_right] at
    [B]. *)
Theorem exact_sol_solves_problem :
  (forall x : R,
     derivable_pt_lim (fun t => fst (exact_sol_R t)) x (snd (exact_sol_R x)) /\
     derivable_pt_lim (fun t => snd (exact_sol_R t)) x (- f_R x)%R) /\
  fst (exact_sol A) = Val_dir_left /\
  fst (exact_sol B) = Val_dir_right.
Proof.
  split; [|split; reflexivity].
  intros x. unfold exact_sol_R, f_R. cbn [fst snd]. split.
  - intros eps Heps. exists (mkposreal eps Heps). intros h Hh Hlt.
    replace ((1 - (x + h) * (x + h) - (1 - x * x)) / h - -2 * x)%R
      with (- h)%R by (field; exact Hh).
    rewrite Rabs_Ropp. exact Hlt.
  - intros eps Heps. exists (mkposreal 1 Rlt_0_1). intros h Hh _.
    replace ((-2 * (x + h) - -2 * x) / h - - (2))%R
      with 0%R by (field; exact Hh).
    rewrite Rabs_R0. exact Heps.
Qed.




(* ----------------------------------------------------------------- *)
(** ** Newton's loop: the number of passes *)

(** X14. Every Newton loop ends: after [k] full iterations, with
    [k < max(1, NEWTON_MAX_ITER)], the pass with [it = 1 + k] leaves
    the loop by [break] or by one of the two [error(...)] calls. *)
Theorem newton_run_ends {SpaceT MatrixT : Type}
    (env : NewtonEnv SpaceT MatrixT) (tol : float) (max_iter : Z)
    (s : SpaceT) (arr : list float) :
  exists r k st1,
    newton env tol max_iter s arr = Some r /\
    full_iterations env tol max_iter k (newton_init env s arr) st1 /\
    (Z.of_nat k < Z.max 1 max_iter)%Z /\
    it st1 = (1 + Z.of_nat k)%Z /\
    match r with
    | Converged st' => newton_iter env tol max_iter st1 = Break st'
    | Failed e st' => newton_iter env tol max_iter st1 = Fatal e st'
    end.
Proof.
  destruct (newton_loop_total env tol max_iter
              (newton_fuel max_iter) (newton_init env s arr)) as [r Hr].
  { cbn [newton_init it]. lia. }
  { unfold newton_fuel. cbn [newton_init it]. lia. }
  destruct (newton_loop_result env tol max_iter _ _ _ Hr)
    as (k & st1 & Hk & Hend).
  exists r, k, st1. split; [exact Hr|]. split; [exact Hk|].
  pose proof (full_iterations_it env tol max_iter _ _ _ Hk) as Hit.
  assert (H1 : (1 <= it (newton_init env s arr))%Z) by (cbn; lia).
  pose proof (newton_loop_it_bound env tol max_iter _ _ _ H1 Hk) as Hb.
  cbn [newton_init it] in Hit, Hb. split; [lia|]. split; [lia|exact Hend].
Qed.

(* ----------------------------------------------------------------- *)
(** ** The adaptivity loop of main.cpp *)

Section AdaptFacts.
Context {SpaceT MatrixT : Type}.
Variable env : AdaptEnv SpaceT MatrixT.

Lemma newton_on_total (tol : float) (sp : SpaceT) :
  exists r, newton_on env tol sp = Some r.
Proof.
  unfold newton_on, newton, newton_fuel, newton_init.
  apply newton_loop_total; cbn [it]; unfold NEWTON_MAX_ITER; lia.
Qed.

Lemma adapt_step_total (sp : SpaceT) (as_ : Z) (s : bool) :
  exists o, adapt_step env sp as_ s = Some o.
Proof.
  unfold adapt_step, adapt_solve.
  destruct (newton_on_total NEWTON_TOL_REF
              (env_construct_refined_space env sp)) as [[st_ref|e st_ref] ->].
  - destruct (1 <? as_)%Z; [|eauto].
    destruct (newton_on_total NEWTON_TOL_COARSE sp) as [[st|e st] ->]; eauto.
  - eauto.
Qed.

(** The pass with [as == 30] does not end in [as++]. *)
Lemma adapt_decide_30 (sp ref_space : SpaceT) (s : bool) :
  exists s', adapt_decide env sp ref_space 30 s = StepBreak s'.
Proof.
  unfold adapt_decide. cbn [Z.eqb Pos.eqb andb].
  destruct (err_est_rel env sp ref_space <? TOL_ERR_REL)%float; eauto.
Qed.

Lemma adapt_loop_total (fuel : nat) (sp : SpaceT) (as_ : Z) (s : bool) :
  (as_ <= 30)%Z -> (30 - as_ < Z.of_nat fuel)%Z ->
  exists r, adapt_loop env fuel sp as_ s = Some r.
Proof.
  revert sp as_ s. induction fuel as [|fuel IH]; intros sp as_ s Has Hfuel;
    [lia|].
  cbn [adapt_loop].
  destruct (adapt_step_total sp as_ s) as [o Ho]. rewrite Ho.
  destruct o as [s'|e|sp' s']; eauto.
  destruct (Z.eq_dec as_ 30%Z) as [->|Hne].
  - exfalso. unfold adapt_step in Ho.
    destruct (adapt_solve env sp 30) as [[e|[sp1 ref_space]]|];
      try discriminate.
    destruct (adapt_decide_30 sp1 ref_space s) as [s'' Hd].
    rewrite Hd in Ho. discriminate.
  - apply IH; lia.
Qed.

(** X10. [main] ends: whatever the library calls return, the coarse
    Newton loop and at most 30 passes of the adaptivity loop lead to a
    [return] or to one of the [error(...)] calls of a Newton loop. *)
Theorem main_total : exists r, main env = Some r.
Proof.
  unfold main.
  destruct (newton_on_total NEWTON_TOL_COARSE (env_initial_space env))
    as [[st|e st] ->]; [|eauto].
  apply adapt_loop_total; lia.
Qed.

(** What a pass that leaves the loop with [success_test] set went
    through. *)
Lemma adapt_decide_success (sp ref_space : SpaceT) (as_ : Z) (s : bool) :
  adapt_decide env sp ref_space as_ s = StepBreak true ->
  s = true /\
  ((err_est_rel env sp ref_space <? TOL_ERR_REL)%float = true \/
   (as_ = 30%Z /\
    (err_est_rel env sp ref_space =? err_est_rel env sp ref_space)%float
      = false)).
Proof.
  unfold adapt_decide.
  set (est := err_est_rel env sp ref_space).
  set (s1 := if (as_ =? 2)%Z && _ then false else s).
  assert (Hs1 : s1 = true -> s = true).
  { subst s1. destruct ((as_ =? 2)%Z && _); [discriminate|auto]. }
  destruct (est <? TOL_ERR_REL)%float eqn:Htol.
  - intros [= H]. auto.
  - destruct (Z.eqb_spec as_ 30%Z) as [->|Hne]; [|discriminate].
    destruct (est =? est)%float eqn:Hnan.
    + rewrite (float_above_tol est Htol Hnan).
      repeat match goal with |- context [negb ?b] => destruct (negb b) end;
        discriminate.
    + destruct (0x1.b7cdfd9d7bdbbp-34 <? est)%float;
        repeat match goal with |- context [negb ?b] => destruct (negb b) end;
        try discriminate.
      intros [= H]. auto.
Qed.

Lemma adapt_decide_next (sp ref_space sp' : SpaceT) (as_ : Z) (s s' : bool) :
  adapt_decide env sp ref_space as_ s = StepNext sp' s' ->
  (s' = true -> s = true) /\ as_ <> 30%Z.
Proof.
  unfold adapt_decide.
  destruct (err_est_rel env sp ref_space <? TOL_ERR_REL)%float;
    [discriminate|].
  destruct (Z.eqb_spec as_ 30%Z) as [->|Hne]; [discriminate|].
  intros [= _ <-]. split; [|exact Hne].
  destruct ((as_ =? 2)%Z && _); [discriminate|auto].
Qed.

Lemma adapt_loop_success (fuel : nat) (sp : SpaceT) (as_ : Z) (s : bool) :
  adapt_loop env fuel sp as_ s = Some (Exit ERROR_SUCCESS) ->
  s = true /\
  exists sp_k as_k sp1 ref_space,
    adapt_reaches env sp as_ s sp_k as_k true /\
    adapt_solve env sp_k as_k = Some (inr (sp1, ref_space)) /\
    ((err_est_rel env sp1 ref_space <? TOL_ERR_REL)%float = true \/
     (as_k = 30%Z /\
      (err_est_rel env sp1 ref_space =? err_est_rel env sp1 ref_space)%float
        = false)).
Proof.
  revert sp as_ s. induction fuel as [|fuel IH]; intros sp as_ s;
    cbn [adapt_loop]; [discriminate|].
  destruct (adapt_step env sp as_ s) as [[s'|e|sp' s']|] eqn:Hstep;
    try discriminate.
  - destruct s'; [intros _|discriminate].
    unfold adapt_step in Hstep.
    destruct (adapt_solve env sp as_) as [[e|[sp1 ref_space]]|] eqn:Hsolve;
      try discriminate.
    injection Hstep as Hd.
    apply adapt_decide_success in Hd as [-> Hest].
    split; [reflexivity|].
    exists sp, as_, sp1, ref_space. split; [constructor|]. auto.
  - intros Hloop. destruct (IH _ _ _ Hloop) as (-> & sp_k & as_k & sp1 & r & Hreach & Hrest).
    assert (s = true) as ->.
    { unfold adapt_step in Hstep.
      destruct (adapt_solve env sp as_) as [[e|[sp2 ref2]]|];
        try discriminate.
      injection Hstep as Hd. apply adapt_decide_next in Hd as [Hs _]. auto. }
    split; [reflexivity|].
    exists sp_k, as_k, sp1, r. split; [|exact Hrest].
    econstructor; eassumption.
Qed.


(** X12. When the coarse and the first reference Newton loop
    converge and the first error estimate is below [TOL_ERR_REL],
    [main] returns [ERROR_SUCCESS]: no check of the exact error, of
    the number of elements or of the degrees is made in the first
    pass. *)
Theorem main_first_step_passes (st st_ref : NewtonState SpaceT) :
  newton_on env NEWTON_TOL_COARSE (env_initial_space env)
    = Some (Converged st) ->
  newton_on env NEWTON_TOL_REF (env_construct_refined_space env (space st))
    = Some (Converged st_ref) ->
  (err_est_rel env (space st) (space st_ref) <? TOL_ERR_REL)%float = true ->
  main env = Some (Exit ERROR_SUCCESS).
Proof.
  intros Hc Hr Hest. unfold main. rewrite Hc.
  cbn [adapt_loop]. unfold adapt_step, adapt_solve. rewrite Hr.
  change (1 <? 1)%Z with false. cbn iota. unfold adapt_decide.
  rewrite Hest. reflexivity.
Qed.

(** X13. [success_test] is never set again: an adaptivity loop that
    goes on with [success_test == 0] and returns, returns
    [ERROR_FAILURE]. *)
Theorem adapt_loop_failure_sticks (fuel : nat) (sp : SpaceT) (as_ : Z)
    (code : Z) :
  adapt_loop env fuel sp as_ false = Some (Exit code) ->
  code = ERROR_FAILURE.
Proof.
  revert sp as_. induction fuel as [|fuel IH]; intros sp as_;
    cbn [adapt_loop]; [discriminate|].
  destruct (adapt_step env sp as_ false) as [[s'|e|sp' s']|] eqn:Hstep;
    try discriminate.
  - destruct s'; [|now intros [= <-]].
    unfold adapt_step in Hstep.
    destruct (adapt_solve env sp as_) as [[e|[sp1 r]]|]; try discriminate.
    injection Hstep as Hd. apply adapt_decide_success in Hd as [Hs _].
    discriminate.
  - unfold adapt_step in Hstep.
    destruct (adapt_solve env sp as_) as [[e|[sp1 r]]|]; try discriminate.
    injection Hstep as Hd. apply adapt_decide_next in Hd as [Hs _].
    destruct s'; [specialize (Hs eq_refl); discriminate|]. apply IH.
Qed.

(** A run that has come to a later pass goes on from there. *)
Lemma adapt_reaches_loop (sp sp' : SpaceT) (as_ as' : Z) (s s' : bool) :
  adapt_reaches env sp as_ s sp' as' s' ->
  forall fuel r,
    adapt_loop env fuel sp as_ s = Some r ->
    exists fuel', adapt_loop env fuel' sp' as' s' = Some r.
Proof.
  induction 1 as [sp as_ s|sp as_ s sp1 s1 sp' as' s' Hstep _ IH];
    intros fuel r Hr; [eauto|].
  destruct fuel as [|fuel]; [discriminate|].
  cbn [adapt_loop] in Hr. rewrite Hstep in Hr. eauto.
Qed.

(** The pass with [as == 2] keeps [success_test] only below the bound
    on the exact error. *)
Lemma adapt_decide_2 (sp ref_space : SpaceT) (s : bool) :
  match adapt_decide env sp ref_space 2 s with
  | StepBreak s' | StepNext _ s' =>
      s' = true -> (0x1.b7cdfd9d7bdbbp-34 <? err_exact_rel env sp)%float = false
  | StepAbort _ => True
  end.
Proof.
  unfold adapt_decide. change (2 =? 2)%Z with true. change (2 =? 30)%Z with false.
  cbn [andb].
  destruct (0x1.b7cdfd9d7bdbbp-34 <? err_exact_rel env sp)%float;
    destruct (err_est_rel env sp ref_space <? TOL_ERR_REL)%float;
    cbn iota; auto; discriminate.
Qed.

(** X16. The one check of the exact error: when [main] returns
    [ERROR_SUCCESS] and the adaptivity loop has come to the pass
    [as == 2], the two Newton loops of that pass converged and its
    [err_exact_rel] is not above [1e-10]. *)
Theorem main_success_exact_error (st : NewtonState SpaceT) (sp2 : SpaceT)
    (s2 : bool) :
  main env = Some (Exit ERROR_SUCCESS) ->
  newton_on env NEWTON_TOL_COARSE (env_initial_space env)
    = Some (Converged st) ->
  adapt_reaches env (space st) 1 true sp2 2 s2 ->
  exists sp1 ref_space,
    adapt_solve env sp2 2 = Some (inr (sp1, ref_space)) /\
    (0x1.b7cdfd9d7bdbbp-34 <? err_exact_rel env sp1)%float = false.
Proof.
  unfold main. intros Hmain Hc Hreach. rewrite Hc in Hmain.
  destruct (adapt_reaches_loop _ _ _ _ _ _ Hreach _ _ Hmain) as [fuel Hloop].
  destruct fuel as [|fuel]; [discriminate|].
  cbn [adapt_loop] in Hloop. unfold adapt_step in Hloop.
  destruct (adapt_solve env sp2 2) as [[e|[sp1 ref_space]]|]; try discriminate.
  exists sp1, ref_space. split; [reflexivity|].
  pose proof (adapt_decide_2 sp1 ref_space s2) as Hd.
  destruct (adapt_decide env sp1 ref_space 2 s2) as [s'|e|sp' s'];
    try discriminate.
  - apply Hd. destruct s'; [reflexivity|discriminate].
  - apply Hd. now apply adapt_loop_success in Hloop as [-> _].
Qed.

End AdaptFacts.

Lemma adapt_loop_failure_sticks_run :
  adapt_loop one_dof_adapt_env 30 [1%float] 1 false
  = Some (Exit ERROR_FAILURE) /\
  ERROR_FAILURE = ERROR_FAILURE.
Proof.
  split; [vm_compute; reflexivity|].
  apply (adapt_loop_failure_sticks one_dof_adapt_env 30 [1%float] 1).
  vm_compute. reflexivity.
Defined.


Lemma main_first_step_passes_run :
  main one_dof_adapt_env = Some (Exit ERROR_SUCCESS).
Proof.
  apply (main_first_step_passes one_dof_adapt_env
           (mkNewtonState [1%float] [1%float] 2)
           (mkNewtonState [1%float] [1%float] 2));
    vm_compute; reflexivity.
Defined.

Lemma main_success_exact_error_run :
  exists sp1 ref_space,
    adapt_solve two_pass_adapt_env [1; 0]%float 2
      = Some (inr (sp1, ref_space)) /\
    (0x1.b7cdfd9d7bdbbp-34 <? err_exact_rel two_pass_adapt_env sp1)%float
      = false.
Proof.
  apply (main_success_exact_error two_pass_adapt_env
           (mkNewtonState [1%float] [1%float] 2) [1; 0]%float true).
  - vm_compute. reflexivity.
  - vm_compute. reflexivity.
  - apply (adapt_reaches_next two_pass_adapt_env [1%float] 1 true
             [1; 0]%float true [1; 0]%float 2 true).
    + vm_compute. reflexivity.
    + apply adapt_reaches_here.
Defined.
